(** * starlight: the TLS certificate expiry checker (checker.go)

    A shallow embedding of the core of [checker.go]: the mutex-guarded
    result map ([SafeMap]), the probe ([checkDomain]), the goroutine fan-out
    of one group ([processBatch]) and the batching loop ([checker]).

    Conventions.
    - A Go [map[string]string] is a [gmap string string]; a read of an
      absent key gives the zero value, the empty string.
    - What a Go function can do besides returning is made explicit by
      [outcome]: an unrecovered panic kills the process, and a [Lock] on a
      mutex that is already held never returns.
    - Goroutines of one group only share the [SafeMap]; every access is a
      critical section of its mutex, so a run of a group is a sequence of
      such sections in some order.  The order is the parameter [sched],
      the answers of the outside world (network, clock) to the probe of
      goroutine number [j] are the parameter [probe].
    - [float64] is Rocq's primitive binary64 float; [time.Duration] is a
      64-bit count of nanoseconds. *)

From Stdlib Require Import ZArith Lia DecimalString.
From Stdlib Require Uint63 Floats.PrimFloat Floats.FloatOps Floats.SpecFloat.
From stdpp Require Import gmap strings list.

(** ** Outcomes of a call *)

Inductive outcome (A : Type) : Type :=
  | Done (a : A)     (* the call returns [a] *)
  | Panic            (* run-time panic, never recovered in checker.go *)
  | Blocked          (* the caller waits for ever *)
  | OutOfFuel.       (* the loop model was given too few iterations *)
Arguments Done {A} a.
Arguments Panic {A}.
Arguments Blocked {A}.
Arguments OutOfFuel {A}.

#[global] Instance outcome_ret : MRet outcome := λ A a, Done a.
#[global] Instance outcome_bind : MBind outcome := λ A B k c,
  match c with
  | Done a => k a
  | Panic => Panic
  | Blocked => Blocked
  | OutOfFuel => OutOfFuel
  end.

(** ** SafeMap (checker.go, lines 20-37) *)

Record SafeMap : Type := { v : gmap string string; mux : bool }.

(** [sync.Mutex]: [mux = true] when held.  [Lock] on a held mutex waits;
    [Unlock] of a mutex that is not held is a fatal run-time error. *)
Definition Lock (results : SafeMap) : outcome SafeMap :=
  if mux results then Blocked else Done {| v := v results; mux := true |}.

Definition Unlock (results : SafeMap) : outcome SafeMap :=
  if mux results then Done {| v := v results; mux := false |} else Panic.

(** [results.v[key] = value] *)
Definition store (key value : string) (results : SafeMap) : SafeMap :=
  {| v := <[key := value]> (v results); mux := mux results |}.

(** [results.v[key]] as an expression: the zero value when absent *)
Definition load (key : string) (results : SafeMap) : string :=
  default "" (v results !! key).

Definition Ins (key value : string) (results : SafeMap) : outcome SafeMap :=
  results ← Lock results;
  Unlock (store key value results).

(** [Retrieve] evaluates the result, then runs the deferred [Unlock]. *)
Definition Retrieve (key : string) (results : SafeMap)
  : outcome (string * SafeMap) :=
  results ← Lock results;
  let r := load key results in
  results ← Unlock results;
  Done (r, results).

(** ** time.Duration, time.Time.Sub, Duration.Hours *)

Local Open Scope Z_scope.

Definition Nanosecond : Z := 1.
Definition Microsecond : Z := 1000 * Nanosecond.
Definition Millisecond : Z := 1000 * Microsecond.
Definition Second : Z := 1000 * Millisecond.
Definition Minute : Z := 60 * Second.
Definition Hour : Z := 60 * Minute.

Definition minDuration : Z := - 2 ^ 63.
Definition maxDuration : Z := 2 ^ 63 - 1.

(** An instant, in nanoseconds on the wall clock.  [cert.NotAfter] carries
    no monotonic reading, so [Sub] is the wall-clock difference, saturated
    to the range of a Duration. *)
Definition Sub (t u : Z) : Z :=
  if t - u <? minDuration then minDuration
  else if maxDuration <? t - u then maxDuration
  else t - u.

(** [float64(n)] for an integer of magnitude below 2^63 *)
Definition float64 (n : Z) : PrimFloat.float :=
  if n <? 0 then PrimFloat.opp (PrimFloat.of_uint63 (Uint63.of_Z (- n)))
  else PrimFloat.of_uint63 (Uint63.of_Z n).

(** Go: [hour := d / Hour; nsec := d % Hour;
         return float64(hour) + float64(nsec)/(60*60*1e9)];
    integer division truncates and [%] takes the sign of the dividend. *)
Definition Hours (d : Z) : PrimFloat.float :=
  let hour := Z.quot d Hour in
  let nsec := Z.rem d Hour in
  PrimFloat.add (float64 hour)
    (PrimFloat.div (float64 nsec) (float64 (60 * 60 * 1000000000))).

(** ** strconv.FormatFloat(f, 'f', 0, 64)

    Go's standard library, after its documentation and [ftoa.go]: the
    exact decimal expansion of the float, rounded to zero digits after
    the point: to the nearest integer, an exact half going to the even
    neighbour.  The sign bit prints as a leading minus, also on a zero. *)

Definition round_half_even (m : positive) (e : Z) : Z :=
  if 0 <=? e then Z.pos m * 2 ^ e
  else
    let p := 2 ^ (- e) in
    let q := Z.pos m / p in
    let r := Z.pos m mod p in
    match 2 * r ?= p with
    | Lt => q
    | Gt => q + 1
    | Eq => if Z.even q then q else q + 1
    end.

Definition itoa (n : Z) : string :=
  NilZero.string_of_uint (N.to_uint (Z.to_N n)).

Definition minus_sign (s : bool) : string := if s then "-" else "".

Definition FormatFloat_f0 (f : PrimFloat.float) : string :=
  match FloatOps.Prim2SF f with
  | SpecFloat.S754_nan => "NaN"
  | SpecFloat.S754_infinity s => if s then "-Inf" else "+Inf"
  | SpecFloat.S754_zero s => minus_sign s +:+ "0"
  | SpecFloat.S754_finite s m e => minus_sign s +:+ itoa (round_half_even m e)
  end.

(** ** checkDomain (checker.go, lines 39-53) *)

Record Certificate : Type := { NotAfter : Z }.
Record ConnectionState : Type := { PeerCertificates : list Certificate }.
Record error : Type := { Error : string }.

Inductive DialResult : Type :=
  | DialOk (conn : ConnectionState)
  | DialErr (err : error).

(** What the outside world answers to one probe: the result of
    [tls.Dial("tcp", host, nil)] and the reading of [time.Now()]. *)
Record Env : Type := { Dial : string → DialResult; Now : Z }.

(** [float64] days left: [cert.NotAfter.Sub(timeNow).Hours()/24] *)
Definition days_left (notAfter timeNow : Z) : PrimFloat.float :=
  PrimFloat.div (Hours (Sub notAfter timeNow)) (float64 24).

(** Returns the lines given to [log.Print] and the outcome of the call.
    Indexing an empty [PeerCertificates] panics. *)
Definition checkDomain (env : Env) (domain : string)
  : list string * outcome string :=
  let host := domain +:+ ":443" in
  match Dial env host with
  | DialErr err => ([Error err], Done (Error err))
  | DialOk conn =>
      match PeerCertificates conn with
      | [] => ([], Panic)
      | cert :: _ =>
          let timeNow := Now env in
          let expiresIn := FormatFloat_f0 (days_left (NotAfter cert) timeNow) in
          ([], Done expiresIn)
      end
  end.

Local Close Scope Z_scope.

(** ** processBatch and checker (checker.go, lines 18 and 55-86) *)

Definition concurrent : nat := 10.

(** The observable state of one run of [checker]: the map [output] that
    it returns, the lines [processBatch] prints with [fmt.Println] (one
    per group, the group itself), the domains whose probe has completed,
    in order of completion, and the lines the probes gave to [log.Print]. *)
Record Run : Type := {
  output : gmap string string;
  stdout : list (list string);
  probed : list string;
  logged : list string
}.

Definition Run0 : Run :=
  {| output := ∅; stdout := []; probed := []; logged := [] |}.

(** The input with the position of each element: the goroutine launched
    for position [j] is goroutine number [j]. *)
Definition numbered (domainsList : list string) : list (nat * string) :=
  zip (seq 0 (length domainsList)) domainsList.

Section Checker.
(** [probe j domain]: what the call [checkDomain(domain)] made by the
    goroutine launched for position [j] of the input logs and returns. *)
Variable probe : nat → string → list string * outcome string.
(** [sched gs]: the order in which the goroutines [gs] of one group run
    [results.Ins(domain, checkDomain(domain))]. *)
Variable sched : list (nat * string) → list (nat * string).

(** The body of the goroutine, [results.Ins(domain, checkDomain(domain))],
    for each goroutine in turn. *)
Fixpoint goroutines (gs : list (nat * string)) (results : SafeMap)
    (done_ : list string) (log : list string)
  : outcome (SafeMap * list string * list string) :=
  match gs with
  | [] => Done (results, done_, log)
  | (j, domain) :: gs =>
      let '(lines, r) := probe j domain in
      value ← r;
      results ← Ins domain value results;
      goroutines gs results (done_ ++ [domain]) (log ++ lines)
  end.

(** The group carries, with each domain, its position in the input.
    [results] shares the map [output] and has a mutex of its own;
    [wg.Wait()] returns once every goroutine of the group is done. *)
Definition processBatch (domains : list (nat * string)) (w : Run)
  : outcome Run :=
  let results := {| v := output w; mux := false |} in
  let printed := stdout w ++ [domains.*2] in
  '(results, done_, log) ← goroutines (sched domains) results (probed w) (logged w);
  Done {| output := v results; stdout := printed;
          probed := done_; logged := log |}.

(** [for i := 0; i < len(domainsList); i += concurrent { ... }] from the
    value [i] on; [fuel] bounds the number of iterations. *)
Fixpoint checker_loop (fuel i : nat) (domainsList : list (nat * string))
    (w : Run) : outcome Run :=
  if i <? length domainsList then
    match fuel with
    | 0 => OutOfFuel
    | S fuel =>
        w ← (if length domainsList <? i + concurrent
             then processBatch (drop i domainsList) w
             else processBatch (take concurrent (drop i domainsList)) w);
        checker_loop fuel (i + concurrent) domainsList w
    end
  else Done w.

(** [output := make(map[string]string)], the loop, [return output]: the
    returned map is [output] of the final state.  The loop runs at most
    once for each element, so [length domainsList] iterations are enough
    (see [checker_ends]). *)
Definition checker (domainsList : list string) : outcome Run :=
  checker_loop (length domainsList) 0 (numbered domainsList) Run0.
End Checker.

(** A probe that always returns: it logs [lg j domain] and returns
    [f j domain]. *)
Definition stub (lg : nat → string → list string) (f : nat → string → string)
  : nat → string → list string * outcome string :=
  λ j domain, (lg j domain, Done (f j domain)).

(** The server's probe: goroutine [j] sees the world [env j]. *)
Definition live (env : nat → Env)
  : nat → string → list string * outcome string :=
  λ j domain, checkDomain (env j) domain.

(** ** Specification vocabulary *)

(** The map after the goroutines [gs] have stored their values in turn. *)
Definition writes (f : nat → string → string) (gs : list (nat * string))
    (m : gmap string string) : gmap string string :=
  foldl (λ m g, <[g.2 := f g.1 g.2]> m) m gs.

(** Groups of exactly [concurrent] elements, except the last one, which has
    between one and [concurrent]. *)
Fixpoint grouped {A} (gss : list (list A)) : Prop :=
  match gss with
  | [] => True
  | g :: rest =>
      match rest with
      | [] => 1 ≤ length g ≤ concurrent
      | _ :: _ => length g = concurrent
      end ∧ grouped rest
  end.

(** The number of distinct domains of a list. *)
Definition distinct (domainsList : list string) : nat :=
  length (remove_dups domainsList).

(** [Ins] for each pair of a list, in turn. *)
Fixpoint Ins_all (kvs : list (string * string)) (results : SafeMap)
  : outcome SafeMap :=
  match kvs with
  | [] => Done results
  | (key, value) :: kvs => results ← Ins key value results; Ins_all kvs results
  end.

(** The integer [n] is nearest to the fraction [num / den], and even when
    the fraction lies half-way between two integers. *)
Definition nearest_even (num den n : Z) : Prop :=
  (2 * Z.abs (n * den - num) ≤ den)%Z ∧
  ((2 * Z.abs (n * den - num))%Z = den → Z.even n = true).

(** The day count as the specification words it: the exact quotient of the
    time left by 24 hours, rounded toward zero, in base 10. *)
Definition days_truncated (notAfter timeNow : Z) : string :=
  let q := ((notAfter - timeNow) ÷ (24 * Hour))%Z in
  if (q <? 0)%Z then "-" +:+ itoa (- q) else itoa q.

(** The text a call returned, the empty string for a call that did not. *)
Definition returned (c : list string * outcome string) : string :=
  match c.2 with
  | Done text => text
  | _ => ""
  end.

(** No world answers a handshake with an empty certificate chain. *)
Definition leafy (env : nat → Env) : Prop :=
  ∀ j host, Dial (env j) host ≠ DialOk {| PeerCertificates := [] |}.

(** ** Sample worlds *)

(** The handshake succeeds; the leaf certificate expires 42 hours from now. *)
Definition world_42h : Env :=
  {| Dial := λ _, DialOk {| PeerCertificates := [ {| NotAfter := 42 * Hour |} ] |};
     Now := 0 |}.

(** The handshake succeeds; the leaf certificate expires 720 hours after
    the clock reading, and an intermediate certificate follows it. *)
Definition world_30d : Env :=
  {| Dial := λ _, DialOk {| PeerCertificates :=
       [ {| NotAfter := 1700000000000000000 + 720 * Hour |};
         {| NotAfter := 1900000000000000000 |} ] |};
     Now := 1700000000000000000 |}.

(** Every dial is refused. *)
Definition world_refused : Env :=
  {| Dial := λ host, DialErr {| Error := "dial tcp " +:+ host +:+ ": connect: connection refused" |};
     Now := 0 |}.

(** ** handleRequest (checker.go, lines 88-165) *)

Record DomainList : Type := { Domains : list string }.
Record respData : Type := { Data : gmap string string; RequestTime : string }.

(** What [handleRequest] asks of the error that [dec.Decode] returned, in
    the order of its [switch]. *)
Record DecodeError : Type := {
  (* errors.As(err, &syntaxError): the Offset of the syntax error *)
  asSyntaxError : option Z;
  (* errors.Is(err, io.ErrUnexpectedEOF) *)
  isUnexpectedEOF : bool;
  (* errors.As(err, &unmarshalTypeError): its Field and its Offset *)
  asUnmarshalTypeError : option (string * Z);
  (* errors.Is(err, io.EOF) *)
  isEOF : bool;
  (* err.Error() *)
  errorText : string
}.

(** What [handleRequest] reads of a request: the Content-Type header, the
    value [header.ParseValueAndParams] finds in it, and what
    [dec.Decode(&doms)] makes of the body, read through
    [http.MaxBytesReader] with unknown fields disallowed. *)
Record Request : Type := {
  ContentType : string;
  MediaType : string;
  Decode : DomainList + DecodeError
}.

Record Response : Type := {
  StatusCode : nat;
  Header : list (string * string);
  Body : string
}.

Definition StatusOK : nat := 200.
Definition StatusBadRequest : nat := 400.
Definition StatusRequestEntityTooLarge : nat := 413.
Definition StatusUnsupportedMediaType : nat := 415.
Definition StatusInternalServerError : nat := 500.

Definition newline : string := String (Ascii.ascii_of_nat 10) "".

(** [http.Error(w, msg, code)]: plain text, the message and a newline. *)
Definition http_Error (msg : string) (code : nat) : Response :=
  {| StatusCode := code;
     Header := [("Content-Type", "text/plain; charset=utf-8");
                ("X-Content-Type-Options", "nosniff")];
     Body := msg +:+ newline |}.

(** The verb [%d] of [fmt.Sprintf] on an integer. *)
Definition format_d (n : Z) : string :=
  if (n <? 0)%Z then "-" +:+ itoa (- n) else itoa n.

Definition HasPrefix (s prefix : string) : bool := String.prefix prefix s.

Definition TrimPrefix (s prefix : string) : string :=
  if HasPrefix s prefix
  then String.substring (String.length prefix)
         (String.length s - String.length prefix) s
  else s.

(** [log.Println] and [log.Printf] of the handler write to the same log
    as the probes. *)
Definition log_line (line : string) (w : Run) : Run :=
  {| output := output w; stdout := stdout w; probed := probed w;
     logged := logged w ++ [line] |}.

Section Handler.
Variable probe : nat → string → list string * outcome string.
Variable sched : list (nat * string) → list (nat * string).
(** The verb [%q] of [fmt.Sprintf]: a string, quoted as Go writes it. *)
Variable Quote : string → string.
(** [json.Marshal(data)] *)
Variable Marshal : respData → string + error.
(** [time.Since(start).String()], for the response and then for the log. *)
Variables (elapsed elapsed' : string).

(** The response written, and the run of [checker] behind it ([Run0] when
    [checker] is not called). *)
Definition handleRequest (req : Request) : outcome (Response * Run) :=
  if negb (String.eqb (ContentType req) "")
     && negb (String.eqb (MediaType req) "application/json")
  then
    let msg := "Content-Type header is not application/json" in
    Done (http_Error msg StatusUnsupportedMediaType, Run0)
  else
    match Decode req with
    | inr err =>
        match asSyntaxError err with
        | Some offset =>
            let msg := "Request body contains badly-formed JSON (at position "
                       +:+ format_d offset +:+ ")" in
            Done (http_Error msg StatusBadRequest, Run0)
        | None =>
        if isUnexpectedEOF err then
          let msg := "Request body contains badly-formed JSON" in
          Done (http_Error msg StatusBadRequest, Run0)
        else
        match asUnmarshalTypeError err with
        | Some (field, offset) =>
            let msg := "Request body contains an invalid value for the "
                       +:+ Quote field +:+ " field (at position "
                       +:+ format_d offset +:+ ")" in
            Done (http_Error msg StatusBadRequest, Run0)
        | None =>
        if HasPrefix (errorText err) "json: unknown field " then
          let fieldName := TrimPrefix (errorText err) "json: unknown field " in
          let msg := "Request body contains unknown field " +:+ fieldName in
          Done (http_Error msg StatusBadRequest, Run0)
        else if isEOF err then
          let msg := "Request body must not be empty" in
          Done (http_Error msg StatusBadRequest, Run0)
        else if String.eqb (errorText err) "http: request body too large" then
          let msg := "Request body must not be larger than 1MB" in
          Done (http_Error msg StatusRequestEntityTooLarge, Run0)
        else
          Done (http_Error "Internal Server Error" StatusInternalServerError,
                log_line (errorText err) Run0)
        end
        end
    | inl doms =>
        w ← checker probe sched (Domains doms);
        let data := {| Data := output w; RequestTime := elapsed |} in
        match Marshal data with
        | inr err =>
            Done (http_Error (Error err) StatusInternalServerError, w)
        | inl js =>
            Done ({| StatusCode := StatusOK;
                     Header := [("Content-Type", "application/json")];
                     Body := js |},
                  log_line ("Request took " +:+ elapsed' +:+ "to process") w)
        end
    end.
End Handler.

(** ** More specification vocabulary *)

(** [ok] holds of the [n] integers from [lo] on. *)
Fixpoint all_from (ok : Z → bool) (n : nat) (lo : Z) : bool :=
  match n with
  | 0 => true
  | S n => ok lo && all_from ok n (lo + 1)%Z
  end.

(** A whole number [h] of hours as days, in base 10: the integer nearest
    to [h / 24], the even one of the two when [h / 24] lies half-way, with
    the sign of [h]. *)
Definition nearest_day (h : Z) : string :=
  let q := (Z.abs h / 24)%Z in
  let r := (Z.abs h mod 24)%Z in
  let n := if (r <? 12)%Z then q
           else if (12 <? r)%Z then (q + 1)%Z
           else if Z.even q then q else (q + 1)%Z in
  (if (h <? 0)%Z then "-" else "") +:+ itoa n.

(** The error texts of the dials that fail, by position of the input. *)
Definition failures (env : nat → Env) (domainsList : list string)
  : list string :=
  omap (λ g : nat * string,
          match Dial (env g.1) (g.2 +:+ ":443") with
          | DialErr err => Some (Error err)
          | DialOk _ => None
          end) (numbered domainsList).

(** ** The result map, sequentially *)

Section SafeMapFacts.
Implicit Types (m : gmap string string) (key value : string).

Lemma Ins_free m key value :
  Ins key value {| v := m; mux := false |}
  = Done {| v := <[key := value]> m; mux := false |}.
Proof. reflexivity. Qed.

Lemma Retrieve_free m key :
  Retrieve key {| v := m; mux := false |}
  = Done (default "" (m !! key), {| v := m; mux := false |}).
Proof. reflexivity. Qed.

Lemma Ins_held m key value :
  Ins key value {| v := m; mux := true |} = Blocked.
Proof. reflexivity. Qed.
End SafeMapFacts.

(** ** What a sequence of stores leaves in the map *)

Section Writes.
Implicit Types (m : gmap string string) (gs : list (nat * string)).

Lemma writes_app f gs1 gs2 m :
  writes f (gs1 ++ gs2) m = writes f gs2 (writes f gs1 m).
Proof. apply foldl_app. Qed.

Lemma dom_writes f gs m :
  dom (writes f gs m) = dom m ∪ list_to_set gs.*2.
Proof.
  revert m. induction gs as [|[j d] gs IH]; intros m.
  - simpl. by rewrite (right_id_L ∅ (∪)).
  - change (writes f ((j, d) :: gs) m)
      with (writes f gs (<[d := f j d]> m)).
    rewrite IH, dom_insert_L, fmap_cons, list_to_set_cons. simpl.
    by rewrite (comm_L (∪) {[d]} (dom m)), (assoc_L (∪)).
Qed.

(** With a result that depends on the domain alone, the order of the
    stores does not show. *)
Lemma lookup_writes_det (f : string → string) gs m d :
  writes (λ _, f) gs m !! d
  = if decide (d ∈ gs.*2) then Some (f d) else m !! d.
Proof.
  revert m. induction gs as [|[j d'] gs IH]; intros m.
  - rewrite decide_False; [done | apply not_elem_of_nil].
  - change (writes (λ _, f) ((j, d') :: gs) m)
      with (writes (λ _, f) gs (<[d' := f d']> m)).
    rewrite IH, fmap_cons. simpl.
    destruct (decide (d = d')) as [->|Hne].
    + rewrite lookup_insert_eq, (decide_True (P := d' ∈ d' :: gs.*2)).
      * by destruct (decide _).
      * apply elem_of_cons; by left.
    + rewrite lookup_insert_ne by done.
      destruct (decide (d ∈ gs.*2)) as [Hin|Hnin].
      * rewrite decide_True; [done | apply elem_of_cons; by right].
      * rewrite decide_False; [done |].
        intros [?|?]%elem_of_cons; done.
Qed.

Lemma writes_det_perm (f : string → string) gs1 gs2 :
  gs1.*2 ≡ₚ gs2.*2 → writes (λ _, f) gs1 ∅ = writes (λ _, f) gs2 ∅.
Proof.
  intros Hp. apply map_eq. intros d. rewrite !lookup_writes_det.
  repeat case_decide; try done.
  - by rewrite Hp in *.
  - by rewrite <- Hp in *.
Qed.
End Writes.

(** ** Groups *)

Section Grouped.
Context {A : Type}.
Implicit Types (g : list A) (gss : list (list A)).

Lemma grouped_nonempty gss g : grouped gss → g ∈ gss → 1 ≤ length g ≤ concurrent.
Proof.
  induction gss as [|g' rest IH]; intros Hg Hin.
  - by apply elem_of_nil in Hin.
  - destruct Hg as [Hhd Htl]. apply elem_of_cons in Hin as [->|Hin].
    + destruct rest; [done | rewrite Hhd; unfold concurrent; lia].
    + by apply IH.
Qed.

Lemma grouped_concat_nil gss : grouped gss → concat gss = [] → gss = [].
Proof.
  destruct gss as [|g rest]; [done|]. intros Hg Hc.
  assert (1 ≤ length g ≤ concurrent) as Hlen
    by (eapply grouped_nonempty; [done | apply elem_of_cons; by left]).
  simpl in Hc. apply app_eq_nil in Hc as [-> _]. simpl in Hlen. lia.
Qed.

Lemma grouped_cons_full g gss :
  length g = concurrent → grouped gss → grouped (g :: gss).
Proof.
  intros Hlen Hg. simpl. split; [|done].
  destruct gss; [unfold concurrent in *; lia | done].
Qed.

(** Every group but the last is full; the last one is not empty. *)
Lemma grouped_lookup gss k g :
  grouped gss → gss !! k = Some g →
  1 ≤ length g ≤ concurrent ∧ (S k < length gss → length g = concurrent).
Proof.
  intros Hg Hk. split.
  - eapply grouped_nonempty; [done | by eapply list_elem_of_lookup_2].
  - revert k Hk. induction gss as [|g' rest IH]; intros k Hk Hlt; [done|].
    destruct k as [|k]; simpl in *.
    + injection Hk as ->. destruct rest; [simpl in Hlt; lia | tauto].
    + apply (IH (proj2 Hg) k Hk). lia.
Qed.
End Grouped.

(** ** Runs of the checker with probes that return *)

Section Runs.
Variables (lg : nat → string → list string) (f : nat → string → string).
Variable sched : list (nat * string) → list (nat * string).

Lemma goroutines_stub gs m done_ log :
  goroutines (stub lg f) gs {| v := m; mux := false |} done_ log
  = Done ({| v := writes f gs m; mux := false |}, done_ ++ gs.*2,
          log ++ concat ((λ g : nat * string, lg g.1 g.2) <$> gs)).
Proof.
  revert m done_ log. induction gs as [|[j d] gs IH]; intros m done_ log.
  - simpl. by rewrite !app_nil_r.
  - simpl. rewrite IH. simpl. by rewrite <- !(assoc_L (++)).
Qed.

Lemma processBatch_stub gs w :
  processBatch (stub lg f) sched gs w
  = Done {| output := writes f (sched gs) (output w);
            stdout := stdout w ++ [gs.*2];
            probed := probed w ++ (sched gs).*2;
            logged := logged w ++ concat ((λ g : nat * string, lg g.1 g.2) <$> sched gs) |}.
Proof. unfold processBatch. by rewrite goroutines_stub. Qed.

(** The loop, from [i] on, with enough fuel: the groups it works on are
    the rest of the list cut into full groups and a remainder, and each
    group is done, in the order [sched] gives it, before the next. *)
Lemma checker_loop_stub fuel i tl w :
  length tl - i ≤ fuel →
  ∃ gss,
    concat gss = drop i tl ∧ grouped gss ∧
    checker_loop (stub lg f) sched fuel i tl w
    = Done {| output := writes f (concat (sched <$> gss)) (output w);
              stdout := stdout w ++ ((λ g : list (nat * string), g.*2) <$> gss);
              probed := probed w ++ concat ((λ g, (sched g).*2) <$> gss);
              logged := logged w
                ++ concat ((λ g : nat * string, lg g.1 g.2) <$> concat (sched <$> gss)) |}.
Proof.
  revert i w. induction fuel as [|fuel IH]; intros i w Hfuel.
  - exists []. rewrite drop_ge by lia.
    destruct tl as [|x tl']; simpl in *.
    + destruct i; simpl; rewrite !app_nil_r; by destruct w.
    + destruct (Nat.ltb_spec i (S (length tl'))); [lia|].
      rewrite !app_nil_r. by destruct w.
  - simpl. destruct (Nat.ltb_spec i (length tl)) as [Hlt|Hge].
    + set (g := if length tl <? i + concurrent then drop i tl
                else take concurrent (drop i tl)).
      destruct (IH (i + concurrent)
        {| output := writes f (sched g) (output w);
           stdout := stdout w ++ [g.*2];
           probed := probed w ++ (sched g).*2;
           logged := logged w ++ concat ((λ g : nat * string, lg g.1 g.2) <$> sched g) |})
        as (gss & Hcat & Hgr & Hrun); [unfold concurrent; lia|].
      assert ((if length tl <? i + concurrent
               then processBatch (stub lg f) sched (drop i tl) w
               else processBatch (stub lg f) sched
                      (take concurrent (drop i tl)) w)
              = processBatch (stub lg f) sched g w) as ->
        by (subst g; by destruct (length tl <? i + concurrent)).
      rewrite processBatch_stub. simpl. rewrite Hrun. simpl.
      exists (g :: gss). split_and!.
      * simpl. rewrite Hcat. subst g.
        destruct (Nat.ltb_spec (length tl) (i + concurrent)).
        -- rewrite (drop_ge tl (i + concurrent)) by lia. apply app_nil_r.
        -- rewrite <- drop_drop. apply take_drop.
      * subst g. destruct (Nat.ltb_spec (length tl) (i + concurrent)).
        -- rewrite (drop_ge tl (i + concurrent)) in Hcat by lia.
           apply grouped_concat_nil in Hcat as ->; [|done]. simpl.
           rewrite length_drop. unfold concurrent in *. lia.
        -- apply grouped_cons_full; [|done].
           rewrite length_take, length_drop. lia.
      * simpl. rewrite writes_app, fmap_app, concat_app.
        by rewrite <- !(assoc_L (++)).
    + exists []. rewrite drop_ge by lia. simpl.
      rewrite !app_nil_r. by destruct w.
Qed.
End Runs.

Section Checker_facts.
Variables (lg : nat → string → list string) (f : nat → string → string).
Variable sched : list (nat * string) → list (nat * string).

Lemma numbered_domains l : (numbered l).*2 = l.
Proof. apply snd_zip. by rewrite length_seq. Qed.

Lemma concat_domains (gss : list (list (nat * string))) :
  concat ((λ g : list (nat * string), g.*2) <$> gss) = (concat gss).*2.
Proof.
  induction gss as [|g gss IH]; [done|].
  simpl. rewrite fmap_app. f_equal. apply IH.
Qed.

Lemma grouped_domains (gss : list (list (nat * string))) :
  grouped gss → grouped ((λ g : list (nat * string), g.*2) <$> gss).
Proof.
  induction gss as [|g gss IH]; [done|]. intros [Hhd Htl].
  split; [|by apply IH].
  rewrite length_fmap. by destruct gss.
Qed.

Lemma sched_concat (gss : list (list (nat * string))) :
  (∀ g, sched g ≡ₚ g) → concat (sched <$> gss) ≡ₚ concat gss.
Proof.
  intros Hs. induction gss as [|g gss IH]; [done|].
  simpl. by rewrite Hs, IH.
Qed.

Lemma sched_groups (gss : list (list (nat * string))) :
  (∀ g, sched g ≡ₚ g) →
  Forall2 (≡ₚ) ((λ g, (sched g).*2) <$> gss)
               ((λ g : list (nat * string), g.*2) <$> gss).
Proof.
  intros Hs. induction gss as [|g gss IH]; simpl; constructor; [|done].
  by rewrite Hs.
Qed.

(** A run of [checker] on [l] returns; its effects, by groups. *)
Lemma checker_stub l :
  ∃ gss,
    concat gss = numbered l ∧ grouped gss ∧
    checker (stub lg f) sched l
    = Done {| output := writes f (concat (sched <$> gss)) ∅;
              stdout := (λ g : list (nat * string), g.*2) <$> gss;
              probed := concat ((λ g, (sched g).*2) <$> gss);
              logged := concat ((λ g : nat * string, lg g.1 g.2)
                                  <$> concat (sched <$> gss)) |}.
Proof.
  destruct (checker_loop_stub lg f sched (length l) 0 (numbered l) Run0)
    as (gss & Hcat & Hgr & Hrun).
  - unfold numbered. rewrite length_zip, length_seq. lia.
  - exists gss. by rewrite drop_0 in Hcat.
Qed.

Lemma distinct_size l : size (list_to_set l : gset string) = distinct l.
Proof.
  unfold distinct. rewrite <- (size_list_to_set (C := gset string));
    [|apply NoDup_remove_dups].
  f_equal. apply set_eq. intros x.
  by rewrite !elem_of_list_to_set, elem_of_remove_dups.
Qed.

Lemma distinct_le l : distinct l ≤ length l.
Proof.
  unfold distinct. induction l as [|x l IH]; simpl; [done|].
  destruct (decide_rel _ x l); simpl; lia.
Qed.
End Checker_facts.

(** ** Time left and its text *)

Section Days.
Local Open Scope Z_scope.

Lemma Sub_in_range t u :
  minDuration ≤ t - u ≤ maxDuration → Sub t u = t - u.
Proof.
  intros [Hlo Hhi]. unfold Sub.
  destruct (Z.ltb_spec (t - u) minDuration); [lia|].
  destruct (Z.ltb_spec maxDuration (t - u)); [lia | done].
Qed.

Lemma round_half_even_nearest m e :
  nearest_even (Z.pos m * 2 ^ Z.max e 0) (2 ^ Z.max (- e) 0)
    (round_half_even m e).
Proof.
  unfold nearest_even, round_half_even.
  destruct (Z.leb_spec 0 e) as [He|He].
  - rewrite (Z.max_l e 0), (Z.max_r (- e) 0) by lia.
    change (2 ^ 0) with 1.
    replace (Z.pos m * 2 ^ e * 1 - Z.pos m * 2 ^ e) with 0 by lia.
    simpl. lia.
  - rewrite (Z.max_r e 0), (Z.max_l (- e) 0) by lia.
    change (2 ^ 0) with 1. rewrite Z.mul_1_r.
    set (p := 2 ^ (- e)).
    assert (0 < p) as Hp by (apply Z.pow_pos_nonneg; lia).
    pose proof (Z.div_mod (Z.pos m) p ltac:(lia)) as Hdm.
    pose proof (Z.mod_pos_bound (Z.pos m) p Hp) as Hr.
    set (q := Z.pos m / p) in *. set (r := Z.pos m mod p) in *.
    destruct (Z.compare_spec (2 * r) p) as [Heq|Hlt|Hgt].
    + destruct (Z.even q) eqn:Hev.
      * split; [|done].
        replace (q * p - Z.pos m) with (- r) by lia. lia.
      * split.
        -- replace ((q + 1) * p - Z.pos m) with (p - r) by lia. lia.
        -- intros _. rewrite Z.even_add, Hev. done.
    + replace (q * p - Z.pos m) with (- r) by lia. split; lia.
    + replace ((q + 1) * p - Z.pos m) with (p - r) by lia. split; lia.
Qed.
End Days.

(** *** Every call of the probe ends: it returns a text, or the handshake
    succeeded without any peer certificate and the indexing panics. *)
Lemma checkDomain_ends env domain :
  (∃ lines text, checkDomain env domain = (lines, Done text)) ∨
  (checkDomain env domain = ([], Panic) ∧
   Dial env (domain +:+ ":443") = DialOk {| PeerCertificates := [] |}).
Proof.
  unfold checkDomain.
  destruct (Dial env (domain +:+ ":443")) as [[[|cert rest]]|err]; eauto.
Qed.

(** ** Runs end *)

(** When every call of the probe returns or panics, so does [checker]:
    the mutex is free whenever a goroutine takes it, and the loop is never
    short of iterations. *)
Section Ends.
Variable probe : nat → string → list string * outcome string.
Variable sched : list (nat * string) → list (nat * string).
Hypothesis probe_ends :
  ∀ j domain, ∃ lines, probe j domain = (lines, Panic) ∨
                       ∃ text, probe j domain = (lines, Done text).

Lemma goroutines_ends gs m done_ log :
  (∃ m' done' log',
     goroutines probe gs {| v := m; mux := false |} done_ log
     = Done ({| v := m'; mux := false |}, done', log')) ∨
  goroutines probe gs {| v := m; mux := false |} done_ log = Panic.
Proof.
  revert m done_ log. induction gs as [|[j d] gs IH]; intros m done_ log.
  - left. by do 3 eexists.
  - simpl. destruct (probe_ends j d) as (lines & [->|(text & ->)]).
    + by right.
    + simpl. apply IH.
Qed.

Lemma processBatch_ends gs w :
  (∃ w', processBatch probe sched gs w = Done w') ∨
  processBatch probe sched gs w = Panic.
Proof.
  unfold processBatch.
  destruct (goroutines_ends (sched gs) (output w) (probed w) (logged w))
    as [(m' & done' & log' & ->)| ->]; [left|right]; [by eexists | done].
Qed.

Lemma checker_loop_ends fuel i tl w :
  length tl - i ≤ fuel →
  (∃ w', checker_loop probe sched fuel i tl w = Done w') ∨
  checker_loop probe sched fuel i tl w = Panic.
Proof.
  revert i w. induction fuel as [|fuel IH]; intros i w Hfuel.
  - left. exists w. destruct tl; simpl in *; [by destruct i|].
    by destruct (Nat.ltb_spec i (S (length tl))); [lia|].
  - simpl. destruct (Nat.ltb_spec i (length tl)); [|left; by eexists].
    set (g := if length tl <? i + concurrent then drop i tl
              else take concurrent (drop i tl)).
    assert ((if length tl <? i + concurrent
             then processBatch probe sched (drop i tl) w
             else processBatch probe sched (take concurrent (drop i tl)) w)
            = processBatch probe sched g w) as ->
      by (subst g; by destruct (length tl <? i + concurrent)).
    destruct (processBatch_ends g w) as [(w' & ->)| ->]; [|by right].
    simpl. apply IH. unfold concurrent. lia.
Qed.

Lemma checker_ends l :
  (∃ w, checker probe sched l = Done w) ∨ checker probe sched l = Panic.
Proof.
  apply checker_loop_ends. unfold numbered.
  rewrite length_zip, length_seq. lia.
Qed.
End Ends.

(** ** The server's probe *)

Section Live.
Variables (probe probe' : nat → string → list string * outcome string).
Variable sched : list (nat * string) → list (nat * string).
Hypothesis probe_eq : ∀ j domain, probe j domain = probe' j domain.

Lemma goroutines_ext gs results done_ log :
  goroutines probe gs results done_ log
  = goroutines probe' gs results done_ log.
Proof.
  revert results done_ log.
  induction gs as [|[j d] gs IH]; intros results done_ log; [done|].
  simpl. rewrite probe_eq. destruct (probe' j d) as [lines [text| | |]]; try done.
  simpl. destruct (Ins d text results); simpl; by rewrite ?IH.
Qed.

Lemma processBatch_ext gs w :
  processBatch probe sched gs w = processBatch probe' sched gs w.
Proof. unfold processBatch. by rewrite goroutines_ext. Qed.

Lemma checker_loop_ext fuel i tl w :
  checker_loop probe sched fuel i tl w = checker_loop probe' sched fuel i tl w.
Proof.
  revert i w. induction fuel as [|fuel IH]; intros i w; [done|].
  simpl. destruct (i <? length tl); [|done].
  rewrite !processBatch_ext.
  destruct (length tl <? i + concurrent);
    (destruct (processBatch probe' sched _ w); simpl; by rewrite ?IH).
Qed.

Lemma checker_ext l : checker probe sched l = checker probe' sched l.
Proof. apply checker_loop_ext. Qed.
End Live.

(** In a world where a handshake that succeeds shows a leaf certificate,
    [checkDomain] always returns, so the server's probe is a [stub]. *)
Lemma live_stub env j domain :
  leafy env →
  live env j domain
  = stub (λ j domain, (checkDomain (env j) domain).1)
         (λ j domain, returned (checkDomain (env j) domain)) j domain.
Proof.
  intros Hleaf. unfold live, stub, returned.
  destruct (checkDomain_ends (env j) domain) as [(lines & text & ->)|[_ Hd]].
  - done.
  - by apply Hleaf in Hd.
Qed.

(** Hence the server's own run returns one entry for each domain asked. *)
Lemma checker_live_keys env sched (domainsList : list string) :
  leafy env → (∀ gs, sched gs ≡ₚ gs) →
  ∃ w, checker (live env) sched domainsList = Done w ∧
       dom (output w) = list_to_set domainsList.
Proof.
  intros Hleaf Hsched.
  rewrite (checker_ext (live env) _ sched (λ j d, live_stub env j d Hleaf)).
  destruct (checker_stub (λ j domain, (checkDomain (env j) domain).1)
              (λ j domain, returned (checkDomain (env j) domain))
              sched domainsList) as (gss & Hcat & _ & ->).
  eexists; split; [done|]. simpl.
  rewrite dom_writes, dom_empty_L, (left_id_L ∅ (∪)).
  by rewrite (sched_concat sched gss Hsched), Hcat, numbered_domains.
Qed.

(** * The claims *)

(** C1. For every input list of domains, and whatever the probes return
    and in whatever order the goroutines of a group finish, [checker]
    returns a map whose keys are exactly the domains of the input:
    duplicates collapse, and the number of entries is
    [min (length domainsList) (distinct domainsList)]. *)
Theorem checker_keys lg f sched (domainsList : list string)
    (Hsched : ∀ gs, sched gs ≡ₚ gs) :
  ∃ w, checker (stub lg f) sched domainsList = Done w ∧
       dom (output w) = list_to_set domainsList ∧
       (∀ domain, is_Some (output w !! domain) ↔ domain ∈ domainsList) ∧
       size (output w) = length domainsList `min` distinct domainsList.
Proof.
  destruct (checker_stub lg f sched domainsList) as (gss & Hcat & _ & ->).
  eexists; split; [done|]. simpl.
  assert (dom (writes f (concat (sched <$> gss)) ∅)
          = list_to_set (C := gset string) domainsList) as Hdom.
  { rewrite dom_writes, dom_empty_L, (left_id_L ∅ (∪)).
    rewrite (sched_concat sched gss Hsched), Hcat.
    by rewrite numbered_domains. }
  split_and!.
  - done.
  - intros domain. by rewrite <- elem_of_dom, Hdom, elem_of_list_to_set.
  - rewrite <- size_dom, Hdom, distinct_size.
    pose proof (distinct_le domainsList). lia.
Qed.

Lemma checker_keys_witness :
  (∀ gs : list (nat * string), reverse gs ≡ₚ gs) ∧
  ∃ w, checker (stub (λ _ _, []) (λ _ domain, domain)) reverse
         ["a.example"; "b.example"; "a.example"] = Done w ∧
       dom (output w) = list_to_set ["a.example"; "b.example"; "a.example"] ∧
       (∀ domain, is_Some (output w !! domain)
                  ↔ domain ∈ ["a.example"; "b.example"; "a.example"]) ∧
       size (output w)
       = length ["a.example"; "b.example"; "a.example"]
         `min` distinct ["a.example"; "b.example"; "a.example"].
Proof.
  split; [apply reverse_Permutation|].
  apply (checker_keys (λ _ _, []) (λ _ domain, domain) reverse
           ["a.example"; "b.example"; "a.example"]).
  apply reverse_Permutation.
Defined.

(** C2. [checker] cuts its input into consecutive groups of exactly
    [concurrent] = 10 domains, the last group holding the remainder, of
    between 1 and [concurrent] domains; it takes the groups in the order
    of the input, and all probes of a group complete before the next
    group is begun: the completions form one segment for each group. *)
Theorem checker_groups lg f sched (domainsList : list string)
    (Hsched : ∀ gs, sched gs ≡ₚ gs) :
  concurrent = 10 ∧
  ∃ w, checker (stub lg f) sched domainsList = Done w ∧
       concat (stdout w) = domainsList ∧
       (∀ k group, stdout w !! k = Some group →
          1 ≤ length group ≤ concurrent ∧
          (S k < length (stdout w) → length group = concurrent)) ∧
       ∃ segments, probed w = concat segments ∧
                   Forall2 (≡ₚ) segments (stdout w).
Proof.
  split; [done|].
  destruct (checker_stub lg f sched domainsList) as (gss & Hcat & Hgr & ->).
  eexists; split; [done|]. simpl. split_and!.
  - by rewrite concat_domains, Hcat, numbered_domains.
  - intros k group Hk. eapply grouped_lookup; [|done].
    by apply grouped_domains.
  - eexists; split; [done|]. by apply sched_groups.
Qed.

Lemma checker_groups_witness :
  (∀ gs : list (nat * string), reverse gs ≡ₚ gs) ∧
  concurrent = 10 ∧
  ∃ w, checker (stub (λ _ _, []) (λ _ domain, domain)) reverse
         (replicate 23 "a.example") = Done w ∧
       concat (stdout w) = replicate 23 "a.example" ∧
       (∀ k group, stdout w !! k = Some group →
          1 ≤ length group ≤ concurrent ∧
          (S k < length (stdout w) → length group = concurrent)) ∧
       ∃ segments, probed w = concat segments ∧
                   Forall2 (≡ₚ) segments (stdout w).
Proof.
  split; [apply reverse_Permutation|].
  apply (checker_groups (λ _ _, []) (λ _ domain, domain) reverse
           (replicate 23 "a.example")).
  apply reverse_Permutation.
Defined.

(** C5. On the empty list [checker] returns an empty map and launches no
    probe: nothing is printed, probed or logged, whatever the probe and
    the scheduler are. *)
Theorem checker_empty probe sched :
  ∃ w, checker probe sched [] = Done w ∧
       output w = ∅ ∧ size (output w) = 0 ∧
       probed w = [] ∧ stdout w = [] ∧ logged w = [].
Proof. by exists Run0. Qed.

(** C7. With a deterministic probe (its result depends on the domain
    alone), two runs of [checker] on the same list return the same map,
    however the goroutines are scheduled in each run. *)
Theorem checker_idempotent lg1 lg2 (f : string → string) sched1 sched2
    (domainsList : list string)
    (Hsched1 : ∀ gs, sched1 gs ≡ₚ gs) (Hsched2 : ∀ gs, sched2 gs ≡ₚ gs) :
  ∃ w1 w2,
    checker (stub lg1 (λ _, f)) sched1 domainsList = Done w1 ∧
    checker (stub lg2 (λ _, f)) sched2 domainsList = Done w2 ∧
    output w1 = output w2 ∧
    dom (output w1) = dom (output w2) ∧
    ∀ domain, output w1 !! domain = output w2 !! domain.
Proof.
  destruct (checker_stub lg1 (λ _, f) sched1 domainsList)
    as (gss1 & Hcat1 & _ & ->).
  destruct (checker_stub lg2 (λ _, f) sched2 domainsList)
    as (gss2 & Hcat2 & _ & ->).
  do 2 eexists. split; [done|]. split; [done|]. simpl.
  assert (writes (λ _, f) (concat (sched1 <$> gss1)) ∅
          = writes (λ _, f) (concat (sched2 <$> gss2)) ∅) as ->; [|done].
  apply writes_det_perm.
  by rewrite (sched_concat sched1 gss1 Hsched1),
    (sched_concat sched2 gss2 Hsched2), Hcat1, Hcat2.
Qed.

Lemma checker_idempotent_witness :
  (∀ gs : list (nat * string), reverse gs ≡ₚ gs) ∧
  (∀ gs : list (nat * string), id gs ≡ₚ gs) ∧
  ∃ w1 w2,
    checker (stub (λ _ _, []) (λ _ domain, domain +:+ "!")) reverse
      ["a.example"; "b.example"; "a.example"] = Done w1 ∧
    checker (stub (λ _ _, []) (λ _ domain, domain +:+ "!")) id
      ["a.example"; "b.example"; "a.example"] = Done w2 ∧
    output w1 = output w2 ∧
    dom (output w1) = dom (output w2) ∧
    ∀ domain, output w1 !! domain = output w2 !! domain.
Proof.
  split; [apply reverse_Permutation|]. split; [done|].
  apply (checker_idempotent (λ _ _, []) (λ _ _, [])
           (λ domain, domain +:+ "!") reverse id
           ["a.example"; "b.example"; "a.example"]).
  - apply reverse_Permutation.
  - done.
Defined.

(** C10. With a deterministic probe, the map [checker] returns does not
    depend on the order of the input: on a list and on any permutation of
    it, under any two schedules, the returned maps are equal. *)
Theorem checker_permutation lg1 lg2 (f : string → string) sched1 sched2
    (domainsList1 domainsList2 : list string)
    (Hperm : domainsList1 ≡ₚ domainsList2)
    (Hsched1 : ∀ gs, sched1 gs ≡ₚ gs) (Hsched2 : ∀ gs, sched2 gs ≡ₚ gs) :
  ∃ w1 w2,
    checker (stub lg1 (λ _, f)) sched1 domainsList1 = Done w1 ∧
    checker (stub lg2 (λ _, f)) sched2 domainsList2 = Done w2 ∧
    output w1 = output w2 ∧
    dom (output w1) = dom (output w2) ∧
    ∀ domain, output w1 !! domain = output w2 !! domain.
Proof.
  destruct (checker_stub lg1 (λ _, f) sched1 domainsList1)
    as (gss1 & Hcat1 & _ & ->).
  destruct (checker_stub lg2 (λ _, f) sched2 domainsList2)
    as (gss2 & Hcat2 & _ & ->).
  do 2 eexists. split; [done|]. split; [done|]. simpl.
  assert (writes (λ _, f) (concat (sched1 <$> gss1)) ∅
          = writes (λ _, f) (concat (sched2 <$> gss2)) ∅) as ->; [|done].
  apply writes_det_perm.
  by rewrite (sched_concat sched1 gss1 Hsched1),
    (sched_concat sched2 gss2 Hsched2), Hcat1, Hcat2, !numbered_domains.
Qed.

Lemma checker_permutation_witness :
  ["a.example"; "b.example"; "c.example"]
    ≡ₚ ["c.example"; "a.example"; "b.example"] ∧
  (∀ gs : list (nat * string), reverse gs ≡ₚ gs) ∧
  (∀ gs : list (nat * string), id gs ≡ₚ gs) ∧
  ∃ w1 w2,
    checker (stub (λ _ _, []) (λ _ domain, domain +:+ "!")) reverse
      ["a.example"; "b.example"; "c.example"] = Done w1 ∧
    checker (stub (λ _ _, []) (λ _ domain, domain +:+ "!")) id
      ["c.example"; "a.example"; "b.example"] = Done w2 ∧
    output w1 = output w2 ∧
    dom (output w1) = dom (output w2) ∧
    ∀ domain, output w1 !! domain = output w2 !! domain.
Proof.
  assert (["a.example"; "b.example"; "c.example"]
            ≡ₚ ["c.example"; "a.example"; "b.example"]) as Hp
    by (symmetry;
        apply (Permutation_cons_append ["a.example"; "b.example"] "c.example")).
  split; [exact Hp|].
  split; [apply reverse_Permutation|]. split; [done|].
  apply (checker_permutation (λ _ _, []) (λ _ _, [])
           (λ domain, domain +:+ "!") reverse id
           ["a.example"; "b.example"; "c.example"]
           ["c.example"; "a.example"; "b.example"]).
  - exact Hp.
  - apply reverse_Permutation.
  - done.
Defined.

(** C3 (as the specification words it, refuted). The result text is not
    the quotient rounded toward zero: with 42 hours left, 1.75 days, the
    probe answers "2" where truncation gives "1". *)
Lemma checkDomain_not_truncated :
  checkDomain world_42h "example.com" = ([], Done "2") ∧
  days_truncated (42 * Hour) (Now world_42h) = "1" ∧
  ¬ (∀ env domain conn cert rest,
       Dial env (domain +:+ ":443") = DialOk conn →
       PeerCertificates conn = cert :: rest →
       checkDomain env domain
       = ([], Done (days_truncated (NotAfter cert) (Now env)))).
Proof.
  split; [by vm_compute|]. split; [by vm_compute|].
  intros H.
  specialize (H world_42h "example.com" _ _ _ eq_refl eq_refl).
  vm_compute in H. discriminate H.
Qed.

Lemma round_half_even_nonneg m e : (0 ≤ round_half_even m e)%Z.
Proof.
  unfold round_half_even. destruct (Z.leb_spec 0 e) as [He|He].
  - apply Z.mul_nonneg_nonneg; [done | apply Z.pow_nonneg; lia].
  - assert (0 < 2 ^ (- e))%Z as Hp by (apply Z.pow_pos_nonneg; lia).
    pose proof (Z.div_pos (Z.pos m) (2 ^ (- e)) ltac:(lia) Hp).
    destruct (_ ?= _)%Z; [destruct (Z.even _)|..]; lia.
Qed.

(** C3 (amended). On a successful handshake the result text is the
    float64 value [cert.NotAfter.Sub(timeNow).Hours()/24] written in base
    10 without decimals: a minus sign when its sign bit is set, then the
    integer nearest to its magnitude, a value half-way between two integers
    going to the even one. *)
Theorem checkDomain_success env domain conn cert rest
    (Hdial : Dial env (domain +:+ ":443") = DialOk conn)
    (Hleaf : PeerCertificates conn = cert :: rest) :
  checkDomain env domain
  = ([], Done (FormatFloat_f0 (days_left (NotAfter cert) (Now env)))) ∧
  (∀ s m e,
     FloatOps.Prim2SF (days_left (NotAfter cert) (Now env))
     = SpecFloat.S754_finite s m e →
     ∃ n, FormatFloat_f0 (days_left (NotAfter cert) (Now env))
          = minus_sign s +:+ itoa n ∧
          (0 ≤ n)%Z ∧
          nearest_even (Z.pos m * 2 ^ Z.max e 0) (2 ^ Z.max (- e) 0) n) ∧
  (∀ s,
     FloatOps.Prim2SF (days_left (NotAfter cert) (Now env))
     = SpecFloat.S754_zero s →
     FormatFloat_f0 (days_left (NotAfter cert) (Now env))
     = minus_sign s +:+ "0").
Proof.
  split_and!.
  - unfold checkDomain. by rewrite Hdial, Hleaf.
  - intros s m e Hx. exists (round_half_even m e). split_and!.
    + unfold FormatFloat_f0. by rewrite Hx.
    + apply round_half_even_nonneg.
    + apply round_half_even_nearest.
  - intros s Hx. unfold FormatFloat_f0. by rewrite Hx.
Qed.

Lemma checkDomain_success_witness :
  checkDomain world_42h "example.com" = ([], Done "2") ∧
  ∃ n, FormatFloat_f0 (days_left (42 * Hour) 0) = minus_sign false +:+ itoa n ∧
       (0 ≤ n)%Z ∧
       nearest_even (7881299347898368 * 2 ^ Z.max (-52) 0)
         (2 ^ Z.max (- -52) 0) n.
Proof.
  destruct (checkDomain_success world_42h "example.com"
              {| PeerCertificates := [ {| NotAfter := 42 * Hour |} ] |}
              {| NotAfter := 42 * Hour |} [] eq_refl eq_refl)
    as (Hrun & Hfin & _).
  split; [exact Hrun|].
  exact (Hfin false 7881299347898368%positive (-52)%Z eq_refl).
Defined.

(** C4. The probe raises nothing to its caller when the dial or the
    handshake fails: it logs the error and returns the text of the error
    as its only result, a string like a day count. *)
Theorem checkDomain_dial_error env domain err
    (Hdial : Dial env (domain +:+ ":443") = DialErr err) :
  checkDomain env domain = ([Error err], Done (Error err)).
Proof. unfold checkDomain. by rewrite Hdial. Qed.

Lemma checkDomain_dial_error_witness :
  checkDomain world_refused "example.com"
  = (["dial tcp example.com:443: connect: connection refused"],
     Done "dial tcp example.com:443: connect: connection refused").
Proof.
  apply (checkDomain_dial_error world_refused "example.com"
    {| Error := "dial tcp example.com:443: connect: connection refused" |}).
  reflexivity.
Defined.

(** C8. When the handshake succeeds and the leaf certificate expires
    exactly 30 days (720 hours) after the clock reading, the result text
    is "30". *)
Theorem checkDomain_30_days env domain conn cert rest
    (Hdial : Dial env (domain +:+ ":443") = DialOk conn)
    (Hleaf : PeerCertificates conn = cert :: rest)
    (Hexp : NotAfter cert = (Now env + 720 * Hour)%Z) :
  checkDomain env domain = ([], Done "30").
Proof.
  unfold checkDomain. rewrite Hdial, Hleaf. unfold days_left.
  rewrite Hexp, Sub_in_range.
  - replace (Now env + 720 * Hour - Now env)%Z with (720 * Hour)%Z by lia.
    vm_compute. reflexivity.
  - replace (Now env + 720 * Hour - Now env)%Z with (720 * Hour)%Z by lia.
    vm_compute. split; discriminate.
Qed.

Lemma checkDomain_30_days_witness :
  checkDomain world_30d "example.com" = ([], Done "30").
Proof.
  apply (checkDomain_30_days world_30d "example.com"
    {| PeerCertificates :=
         [ {| NotAfter := 1700000000000000000 + 720 * Hour |};
           {| NotAfter := 1900000000000000000 |} ] |}
    {| NotAfter := 1700000000000000000 + 720 * Hour |}
    [ {| NotAfter := 1900000000000000000 |} ]);
    reflexivity.
Defined.

Lemma Ins_all_free kvs m :
  Ins_all kvs {| v := m; mux := false |}
  = Done {| v := foldl (λ m kv, <[kv.1 := kv.2]> m) m kvs; mux := false |}.
Proof.
  revert m. induction kvs as [|[key value] kvs IH]; intros m; [done|].
  simpl. by rewrite IH.
Qed.

Lemma lookup_inserts_fresh (kvs : list (string * string))
    (m : gmap string string) key :
  key ∉ kvs.*1 →
  foldl (λ m kv, <[kv.1 := kv.2]> m) m kvs !! key = m !! key.
Proof.
  revert m. induction kvs as [|[key' value] kvs IH]; intros m Hfresh; [done|].
  rewrite fmap_cons in Hfresh. apply not_elem_of_cons in Hfresh as [Hne Hfresh].
  simpl. rewrite IH by done. by rewrite lookup_insert_ne.
Qed.

(** C6. [Ins key value] followed by [Retrieve key] returns [value],
    whatever the map held for [key] before; and [Retrieve] of a key that
    was never inserted, in a map made empty and filled by [Ins] alone,
    returns the empty string.  Both calls leave the mutex free. *)
Theorem Ins_Retrieve (m : gmap string string) (key value : string)
    (kvs : list (string * string)) (absent : string)
    (Hnever : absent ∉ kvs.*1) :
  (∃ results,
     Ins key value {| v := m; mux := false |} = Done results ∧
     Retrieve key results = Done (value, results) ∧
     mux results = false) ∧
  (∃ results,
     Ins_all kvs {| v := ∅; mux := false |} = Done results ∧
     Retrieve absent results = Done ("", results)).
Proof.
  split.
  - eexists. split; [apply Ins_free|].
    rewrite Retrieve_free, lookup_insert_eq. done.
  - eexists. split; [apply Ins_all_free|].
    rewrite Retrieve_free, lookup_inserts_fresh, lookup_empty by done. done.
Qed.

Lemma Ins_Retrieve_witness :
  ("c.example" ∉ [("a.example", "12"); ("b.example", "30")].*1) ∧
  (∃ results,
     Ins "a.example" "89" {| v := {[ "a.example" := "12" ]}; mux := false |}
     = Done results ∧
     Retrieve "a.example" results = Done ("89", results) ∧
     mux results = false) ∧
  (∃ results,
     Ins_all [("a.example", "12"); ("b.example", "30")]
       {| v := ∅; mux := false |} = Done results ∧
     Retrieve "c.example" results = Done ("", results)).
Proof.
  assert ("c.example" ∉ ([("a.example", "12"); ("b.example", "30")].*1))
    as Hnever.
  { intros H. cbn in H.
    repeat (apply elem_of_cons in H as [H|H]; [discriminate H|]).
    by apply elem_of_nil in H. }
  split; [exact Hnever|].
  exact (Ins_Retrieve {[ "a.example" := "12" ]} "a.example" "89"
           [("a.example", "12"); ("b.example", "30")] "c.example" Hnever).
Defined.

(** C9. [Ins key value] changes the entry of [key] alone: for every
    other key, the map holds what it held, and [Retrieve] returns after
    the insert what it returned before. *)
Theorem Ins_frame (m : gmap string string) (key value other : string)
    (Hother : key ≠ other) :
  ∃ results before,
    Ins key value {| v := m; mux := false |} = Done results ∧
    v results !! other = m !! other ∧
    Retrieve other {| v := m; mux := false |}
    = Done (before, {| v := m; mux := false |}) ∧
    Retrieve other results = Done (before, results).
Proof.
  do 2 eexists. split; [apply Ins_free|]. simpl. split_and!.
  - by rewrite lookup_insert_ne.
  - apply Retrieve_free.
  - by rewrite Retrieve_free, lookup_insert_ne.
Qed.

Lemma Ins_frame_witness :
  "a.example" ≠ "b.example" ∧
  ∃ results before,
    Ins "a.example" "89" {| v := {[ "b.example" := "30" ]}; mux := false |}
    = Done results ∧
    v results !! "b.example"
    = ({[ "b.example" := "30" ]} : gmap string string) !! "b.example" ∧
    Retrieve "b.example" {| v := {[ "b.example" := "30" ]}; mux := false |}
    = Done (before, {| v := {[ "b.example" := "30" ]}; mux := false |}) ∧
    Retrieve "b.example" results = Done (before, results).
Proof.
  assert ("a.example" ≠ "b.example") as Hother by discriminate.
  split; [exact Hother|].
  exact (Ins_frame {[ "b.example" := "30" ]} "a.example" "89" "b.example"
           Hother).
Defined.

(** * Further properties *)

(** ** The result map *)

Lemma lookup_inserts_last (kvs1 kvs2 : list (string * string))
    (m : gmap string string) key value :
  key ∉ kvs2.*1 →
  foldl (λ m kv, <[kv.1 := kv.2]> m) m (kvs1 ++ (key, value) :: kvs2) !! key
  = Some value.
Proof.
  intros Hlast. rewrite foldl_app. simpl.
  rewrite lookup_inserts_fresh by done. apply lookup_insert_eq.
Qed.

Lemma inserts_perm (kvs1 kvs2 : list (string * string))
    (m : gmap string string) :
  kvs1 ≡ₚ kvs2 → NoDup kvs1.*1 →
  foldl (λ m kv, <[kv.1 := kv.2]> m) m kvs1
  = foldl (λ m kv, <[kv.1 := kv.2]> m) m kvs2.
Proof.
  intros Hp. revert m.
  induction Hp as [|[k x] l1 l2 Hp IH|[k1 x1] [k2 x2] l|l1 l2 l3 Hp1 IH1 Hp2 IH2];
    intros m Hnd.
  - done.
  - simpl. apply IH. rewrite fmap_cons in Hnd. by apply NoDup_cons in Hnd as [_ ?].
  - simpl. rewrite !fmap_cons in Hnd. simpl in Hnd.
    apply NoDup_cons in Hnd as [Hne _].
    rewrite insert_insert_ne; [done|].
    intros ->. apply Hne. apply elem_of_cons. by left.
  - rewrite IH1 by done. apply IH2. by rewrite <- Hp1.
Qed.

(** X1. Last write wins: after any sequence of [Ins], on any map,
    [Retrieve key] returns the value of the last [Ins] made for [key]. *)
Theorem Ins_last_wins (m : gmap string string)
    (before after : list (string * string)) (key value : string)
    (Hlast : key ∉ after.*1) :
  ∃ results,
    Ins_all (before ++ (key, value) :: after) {| v := m; mux := false |}
    = Done results ∧
    Retrieve key results = Done (value, results).
Proof.
  eexists. split; [apply Ins_all_free|].
  rewrite Retrieve_free, lookup_inserts_last by done. done.
Qed.

Lemma Ins_last_wins_witness :
  ("a.example" ∉ [("b.example", "30")].*1) ∧
  ∃ results,
    Ins_all ([("a.example", "12")] ++ ("a.example", "89") :: [("b.example", "30")])
      {| v := {[ "a.example" := "7" ]}; mux := false |}
    = Done results ∧
    Retrieve "a.example" results = Done ("89", results).
Proof.
  assert ("a.example" ∉ [("b.example", "30")].*1) as Hlast.
  { intros H. cbn in H.
    repeat (apply elem_of_cons in H as [H|H]; [discriminate H|]).
    by apply elem_of_nil in H. }
  split; [exact Hlast|].
  exact (Ins_last_wins {[ "a.example" := "7" ]} [("a.example", "12")]
           [("b.example", "30")] "a.example" "89" Hlast).
Defined.

(** X2. Inserts of distinct keys commute: two orders of the same [Ins]
    calls, no key written twice, leave the same map and a free mutex. *)
Theorem Ins_all_permutation (m : gmap string string)
    (kvs1 kvs2 : list (string * string))
    (Hperm : kvs1 ≡ₚ kvs2) (Hkeys : NoDup kvs1.*1) :
  ∃ results,
    Ins_all kvs1 {| v := m; mux := false |} = Done results ∧
    Ins_all kvs2 {| v := m; mux := false |} = Done results ∧
    mux results = false.
Proof.
  eexists. split; [apply Ins_all_free|].
  rewrite Ins_all_free, (inserts_perm kvs1 kvs2 m) by done. done.
Qed.

Lemma Ins_all_permutation_witness :
  [("a.example", "12"); ("b.example", "30")]
    ≡ₚ [("b.example", "30"); ("a.example", "12")] ∧
  NoDup [("a.example", "12"); ("b.example", "30")].*1 ∧
  ∃ results,
    Ins_all [("a.example", "12"); ("b.example", "30")]
      {| v := ∅; mux := false |} = Done results ∧
    Ins_all [("b.example", "30"); ("a.example", "12")]
      {| v := ∅; mux := false |} = Done results ∧
    mux results = false.
Proof.
  assert ([("a.example", "12"); ("b.example", "30")]
            ≡ₚ [("b.example", "30"); ("a.example", "12")]) as Hperm
    by apply Permutation_swap.
  assert (NoDup [("a.example", "12"); ("b.example", "30")].*1) as Hkeys.
  { cbn. apply NoDup_cons. split.
    - intros H. apply list_elem_of_singleton in H. discriminate H.
    - apply NoDup_singleton. }
  split; [exact Hperm|]. split; [exact Hkeys|].
  exact (Ins_all_permutation ∅ _ _ Hperm Hkeys).
Defined.

(** ** The batches *)

Lemma concat_sched_domains (sched : list (nat * string) → list (nat * string))
    (gss : list (list (nat * string))) :
  concat ((λ g, (sched g).*2) <$> gss) = (concat (sched <$> gss)).*2.
Proof.
  induction gss as [|g gss IH]; [done|].
  simpl. rewrite fmap_app. f_equal. apply IH.
Qed.

Lemma numbered_lookup l i : numbered l !! i = pair i <$> l !! i.
Proof.
  unfold numbered. rewrite lookup_zip_with.
  destruct (l !! i) as [d|] eqn:Hd.
  - rewrite lookup_seq_lt by (by eapply lookup_lt_Some). done.
  - rewrite lookup_seq_ge by (by apply lookup_ge_None). done.
Qed.

Lemma elem_of_numbered l j d : (j, d) ∈ numbered l ↔ l !! j = Some d.
Proof.
  rewrite list_elem_of_lookup. split.
  - intros [i Hi]. rewrite numbered_lookup in Hi.
    destruct (l !! i) eqn:Hd; simpl in Hi; [|done]. by injection Hi as <- <-.
  - intros Hd. exists j. by rewrite numbered_lookup, Hd.
Qed.

Section Writes_more.
Variable f : nat → string → string.
Implicit Types (m : gmap string string) (gs : list (nat * string)).

Lemma writes_notin gs m d : d ∉ gs.*2 → writes f gs m !! d = m !! d.
Proof.
  revert m. induction gs as [|[j d'] gs IH]; intros m Hd; [done|].
  rewrite fmap_cons in Hd. apply not_elem_of_cons in Hd as [Hne Hd].
  change (writes f ((j, d') :: gs) m) with (writes f gs (<[d' := f j d']> m)).
  rewrite IH by done. by rewrite lookup_insert_ne.
Qed.

(** The value left for a domain is that of the last goroutine that
    stored one for it. *)
Lemma writes_member gs m d :
  d ∈ gs.*2 → ∃ j, (j, d) ∈ gs ∧ writes f gs m !! d = Some (f j d).
Proof.
  revert m. induction gs as [|[j d'] gs IH]; intros m Hd.
  - by apply elem_of_nil in Hd.
  - change (writes f ((j, d') :: gs) m) with (writes f gs (<[d' := f j d']> m)).
    destruct (decide (d ∈ gs.*2)) as [Hin|Hnin].
    + destruct (IH (<[d' := f j d']> m) Hin) as (j' & Hj' & Hw).
      exists j'. split; [|done]. apply elem_of_cons. by right.
    + rewrite fmap_cons in Hd. apply elem_of_cons in Hd as [->|Hd]; [|done].
      exists j. split; [apply elem_of_cons; by left|].
      rewrite writes_notin by done. apply lookup_insert_eq.
Qed.
End Writes_more.

Lemma grouped_length {A} (gss : list (list A)) :
  grouped gss →
  length gss = (length (concat gss) + concurrent - 1) `div` concurrent.
Proof.
  induction gss as [|g rest IH]; intros Hg; [done|].
  destruct Hg as [Hhd Htl]. specialize (IH Htl).
  change (concat (g :: rest)) with (g ++ concat rest).
  change (length (g :: rest)) with (S (length rest)).
  rewrite length_app, IH. unfold concurrent in *.
  destruct rest as [|g' rest].
  - change (length (concat [])) with 0.
    pose proof (Nat.div_mod_eq (0 + 10 - 1) 10).
    pose proof (Nat.mod_upper_bound (0 + 10 - 1) 10).
    pose proof (Nat.div_mod_eq (length g + 0 + 10 - 1) 10).
    pose proof (Nat.mod_upper_bound (length g + 0 + 10 - 1) 10).
    lia.
  - set (n := length (concat (g' :: rest))) in *.
    pose proof (Nat.div_mod_eq (n + 10 - 1) 10).
    pose proof (Nat.mod_upper_bound (n + 10 - 1) 10).
    pose proof (Nat.div_mod_eq (length g + n + 10 - 1) 10).
    pose proof (Nat.mod_upper_bound (length g + n + 10 - 1) 10).
    lia.
Qed.

(** X3. Every position of the input is probed exactly once, duplicates
    of a domain included: the completed probes are a permutation of the
    input list. *)
Theorem checker_probes_each_once lg f sched (domainsList : list string)
    (Hsched : ∀ gs, sched gs ≡ₚ gs) :
  ∃ w, checker (stub lg f) sched domainsList = Done w ∧
       probed w ≡ₚ domainsList ∧
       length (probed w) = length domainsList.
Proof.
  destruct (checker_stub lg f sched domainsList) as (gss & Hcat & _ & ->).
  eexists; split; [done|]. simpl.
  assert (concat ((λ g, (sched g).*2) <$> gss) ≡ₚ domainsList) as Hp.
  { rewrite concat_sched_domains, (sched_concat sched gss Hsched), Hcat.
    by rewrite numbered_domains. }
  split; [done | by rewrite Hp].
Qed.

Lemma checker_probes_each_once_witness :
  (∀ gs : list (nat * string), reverse gs ≡ₚ gs) ∧
  ∃ w, checker (stub (λ _ _, []) (λ _ domain, domain)) reverse
         ["a.example"; "b.example"; "a.example"] = Done w ∧
       probed w ≡ₚ ["a.example"; "b.example"; "a.example"] ∧
       length (probed w) = length ["a.example"; "b.example"; "a.example"].
Proof.
  split; [apply reverse_Permutation|].
  apply (checker_probes_each_once (λ _ _, []) (λ _ domain, domain) reverse
           ["a.example"; "b.example"; "a.example"]).
  apply reverse_Permutation.
Defined.

(** X4. [checker] calls [processBatch] once for every [concurrent]
    domains, rounded up: a list of length L makes
    (L + concurrent - 1) / concurrent groups. *)
Theorem checker_group_count lg f sched (domainsList : list string) :
  ∃ w, checker (stub lg f) sched domainsList = Done w ∧
       length (stdout w)
       = (length domainsList + concurrent - 1) `div` concurrent.
Proof.
  destruct (checker_stub lg f sched domainsList) as (gss & Hcat & Hgr & ->).
  eexists; split; [done|]. simpl.
  rewrite length_fmap, (grouped_length gss Hgr), Hcat.
  unfold numbered. rewrite length_zip, length_seq. by rewrite Nat.min_id.
Qed.

(** X5. A list that is not empty and no longer than [concurrent] is
    processed as one single group, the list itself. *)
Theorem checker_single_group lg f sched (domainsList : list string)
    (Hlen : 0 < length domainsList ≤ concurrent) :
  ∃ w, checker (stub lg f) sched domainsList = Done w ∧
       stdout w = [domainsList].
Proof.
  destruct (checker_stub lg f sched domainsList) as (gss & Hcat & Hgr & ->).
  eexists; split; [done|]. simpl.
  pose proof (grouped_length gss Hgr) as Hn. rewrite Hcat in Hn.
  unfold numbered in Hn. rewrite length_zip, length_seq, Nat.min_id in Hn.
  assert (length gss = 1) as Hone.
  { rewrite Hn. unfold concurrent in *.
    pose proof (Nat.div_mod_eq (length domainsList + 10 - 1) 10).
    pose proof (Nat.mod_upper_bound (length domainsList + 10 - 1) 10).
    lia. }
  destruct gss as [|g [|g' rest]]; try done.
  simpl in Hcat. rewrite app_nil_r in Hcat. subst g.
  simpl. by rewrite numbered_domains.
Qed.

Lemma checker_single_group_witness :
  0 < length ["a.example"; "b.example"; "a.example"] ≤ concurrent ∧
  ∃ w, checker (stub (λ _ _, []) (λ _ domain, domain)) reverse
         ["a.example"; "b.example"; "a.example"] = Done w ∧
       stdout w = [["a.example"; "b.example"; "a.example"]].
Proof.
  assert (0 < length ["a.example"; "b.example"; "a.example"] ≤ concurrent)
    as Hlen by (unfold concurrent; simpl; lia).
  split; [exact Hlen|].
  exact (checker_single_group (λ _ _, []) (λ _ domain, domain) reverse
           ["a.example"; "b.example"; "a.example"] Hlen).
Defined.

(** X6. Every entry of the returned map holds what a probe of that very
    domain returned: the value stored under a domain is the result of
    the goroutine of some position of the input that holds this domain. *)
Theorem checker_value_source lg f sched (domainsList : list string)
    (Hsched : ∀ gs, sched gs ≡ₚ gs) :
  ∃ w, checker (stub lg f) sched domainsList = Done w ∧
       ∀ domain value, output w !! domain = Some value →
         ∃ j, domainsList !! j = Some domain ∧ value = f j domain.
Proof.
  destruct (checker_stub lg f sched domainsList) as (gss & Hcat & _ & ->).
  eexists; split; [done|]. simpl. intros domain value Hv.
  destruct (decide (domain ∈ (concat (sched <$> gss)).*2)) as [Hin|Hnin].
  - destruct (writes_member f _ ∅ domain Hin) as (j & Hj & Hw).
    exists j. split; [|congruence].
    apply elem_of_numbered. by rewrite <- Hcat, <- (sched_concat sched gss Hsched).
  - rewrite writes_notin, lookup_empty in Hv by done. done.
Qed.

Lemma checker_value_source_witness :
  (∀ gs : list (nat * string), reverse gs ≡ₚ gs) ∧
  ∃ w, checker (stub (λ _ _, []) (λ j domain, domain +:+ "!")) reverse
         ["a.example"; "b.example"; "a.example"] = Done w ∧
       ∀ domain value, output w !! domain = Some value →
         ∃ j, ["a.example"; "b.example"; "a.example"] !! j = Some domain ∧
              value = domain +:+ "!".
Proof.
  split; [apply reverse_Permutation|].
  apply (checker_value_source (λ _ _, []) (λ j domain, domain +:+ "!") reverse
           ["a.example"; "b.example"; "a.example"]).
  apply reverse_Permutation.
Defined.

(** X7. When no domain occurs twice in the input, the returned map does
    not depend on the schedule even if the probes are not deterministic:
    each domain holds the result of the probe made for its position. *)
Theorem checker_distinct_domains lg f sched (domainsList : list string)
    (Hsched : ∀ gs, sched gs ≡ₚ gs) (Hnodup : NoDup domainsList) :
  ∃ w, checker (stub lg f) sched domainsList = Done w ∧
       ∀ j domain, domainsList !! j = Some domain →
         output w !! domain = Some (f j domain).
Proof.
  destruct (checker_stub lg f sched domainsList) as (gss & Hcat & _ & ->).
  eexists; split; [done|]. simpl. intros j domain Hj.
  assert (concat (sched <$> gss) ≡ₚ numbered domainsList) as Hp
    by (by rewrite (sched_concat sched gss Hsched), Hcat).
  assert (domain ∈ (concat (sched <$> gss)).*2) as Hin.
  { rewrite Hp, numbered_domains. by eapply list_elem_of_lookup_2. }
  destruct (writes_member f _ ∅ domain Hin) as (j' & Hj' & ->).
  rewrite Hp in Hj'. apply elem_of_numbered in Hj'.
  by rewrite (NoDup_lookup domainsList j j' domain Hnodup Hj Hj').
Qed.

Lemma checker_distinct_domains_witness :
  (∀ gs : list (nat * string), reverse gs ≡ₚ gs) ∧
  NoDup ["a.example"; "b.example"] ∧
  ∃ w, checker (stub (λ _ _, []) (λ j domain, (if Nat.even j then "12" else "30"))) reverse
         ["a.example"; "b.example"] = Done w ∧
       ∀ j domain, ["a.example"; "b.example"] !! j = Some domain →
         output w !! domain = Some ((if Nat.even j then "12" else "30")).
Proof.
  assert (NoDup ["a.example"; "b.example"]) as Hnodup.
  { apply NoDup_cons. split.
    - intros H. apply list_elem_of_singleton in H. discriminate H.
    - apply NoDup_singleton. }
  split; [apply reverse_Permutation|]. split; [exact Hnodup|].
  apply (checker_distinct_domains (λ _ _, [])
           (λ j domain, (if Nat.even j then "12" else "30")) reverse
           ["a.example"; "b.example"]).
  - apply reverse_Permutation.
  - exact Hnodup.
Defined.

Lemma elem_of_concat {A} (x : A) (gss : list (list A)) :
  x ∈ concat gss ↔ ∃ k g, gss !! k = Some g ∧ x ∈ g.
Proof.
  induction gss as [|g0 rest IH].
  - split; [by intros ?%elem_of_nil | by intros (k & g & ? & _)].
  - change (concat (g0 :: rest)) with (g0 ++ concat rest).
    rewrite elem_of_app, IH. split.
    + intros [Hx|(k & g & Hk & Hx)]; [by exists 0, g0 | by exists (S k), g].
    + intros ([|k] & g & Hk & Hx); simpl in Hk.
      * left. by injection Hk as ->.
      * right. by exists k, g.
Qed.

Lemma grouped_concat_lookup {A} (gss : list (list A)) k g i x :
  grouped gss → gss !! k = Some g → g !! i = Some x →
  concat gss !! (k * concurrent + i) = Some x.
Proof.
  revert k. induction gss as [|g0 rest IH]; intros k Hg Hk Hi; [done|].
  change (concat (g0 :: rest)) with (g0 ++ concat rest).
  destruct Hg as [Hhd Htl]. destruct k as [|k]; simpl in Hk.
  - injection Hk as ->. by apply lookup_app_l_Some.
  - assert (length g0 = concurrent) as Hfull by (by destruct rest).
    rewrite lookup_app_r by (unfold concurrent in *; lia).
    replace (S k * concurrent + i - length g0) with (k * concurrent + i)
      by (unfold concurrent in *; lia).
    by apply IH.
Qed.

(** The group number [k] holds the positions [k * concurrent] and on. *)
Lemma group_positions l (gss : list (list (nat * string))) k g j d :
  concat gss = numbered l → grouped gss → gss !! k = Some g → (j, d) ∈ g →
  j `div` concurrent = k ∧ l !! j = Some d.
Proof.
  intros Hcat Hgr Hk Hj.
  apply list_elem_of_lookup in Hj as [i Hi].
  pose proof (grouped_concat_lookup gss k g i (j, d) Hgr Hk Hi) as Hc.
  rewrite Hcat, numbered_lookup in Hc.
  destruct (l !! (k * concurrent + i)) as [d'|] eqn:Hd; [|done].
  simpl in Hc. injection Hc as <- <-. split; [|done].
  assert (i < concurrent) as Hlt.
  { apply lookup_lt_Some in Hi.
    assert (g ∈ gss) as Hmem by (by eapply list_elem_of_lookup_2).
    pose proof (grouped_nonempty gss g Hgr Hmem). lia. }
  symmetry. apply (Nat.div_unique _ concurrent k i); lia.
Qed.

Lemma writes_groups f sched (gss : list (list (nat * string)))
    (m : gmap string string) d :
  (∀ gs, sched gs ≡ₚ gs) → d ∈ (concat gss).*2 →
  ∃ k g j, gss !! k = Some g ∧ (j, d) ∈ g ∧
           writes f (concat (sched <$> gss)) m !! d = Some (f j d) ∧
           ∀ k' g' j', gss !! k' = Some g' → (j', d) ∈ g' → k' ≤ k.
Proof.
  intros Hsched. revert m.
  induction gss as [|g rest IH]; intros m Hd; [by apply elem_of_nil in Hd|].
  change (concat (sched <$> g :: rest))
    with (sched g ++ concat (sched <$> rest)).
  rewrite writes_app.
  destruct (decide (d ∈ (concat rest).*2)) as [Hin|Hnin].
  - destruct (IH (writes f (sched g) m) Hin) as (k & g' & j & Hk & Hj & Hw & Hmax).
    exists (S k), g', j. split_and!; try done.
    intros [|k'] g'' j' Hk' Hj'; [lia|].
    simpl in Hk'. pose proof (Hmax k' g'' j' Hk' Hj'). lia.
  - change (concat (g :: rest)) with (g ++ concat rest) in Hd.
    rewrite fmap_app, elem_of_app in Hd. destruct Hd as [Hd|Hd]; [|done].
    rewrite writes_notin
      by (by rewrite (sched_concat sched rest Hsched)).
    rewrite <- (Hsched g) in Hd.
    destruct (writes_member f (sched g) m d Hd) as (j & Hj & Hw).
    exists 0, g, j. split_and!; try done.
    + by rewrite <- (Hsched g).
    + intros [|k'] g' j' Hk' Hj'; [done|]. simpl in Hk'.
      exfalso. apply Hnin. apply list_elem_of_fmap.
      exists (j', d). split; [done|]. apply elem_of_concat. by exists k', g'.
Qed.

(** X8. Between groups the order is fixed: when a domain occurs more
    than once, the value kept for it comes from a position in the last
    group that holds the domain, whatever the schedule within the groups. *)
Theorem checker_last_group_wins lg f sched (domainsList : list string)
    (domain : string)
    (Hsched : ∀ gs, sched gs ≡ₚ gs) (Hin : domain ∈ domainsList) :
  ∃ w j,
    checker (stub lg f) sched domainsList = Done w ∧
    domainsList !! j = Some domain ∧
    output w !! domain = Some (f j domain) ∧
    ∀ j', domainsList !! j' = Some domain →
          j' `div` concurrent ≤ j `div` concurrent.
Proof.
  destruct (checker_stub lg f sched domainsList) as (gss & Hcat & Hgr & ->).
  assert (domain ∈ (concat gss).*2) as Hd
    by (by rewrite Hcat, numbered_domains).
  destruct (writes_groups f sched gss ∅ domain Hsched Hd)
    as (k & g & j & Hk & Hj & Hw & Hmax).
  destruct (group_positions _ gss k g j domain Hcat Hgr Hk Hj) as [Hdiv Hlj].
  eexists _, j. split; [done|]. split; [done|]. split; [exact Hw|].
  intros j' Hj'. apply elem_of_numbered in Hj'. rewrite <- Hcat in Hj'.
  apply elem_of_concat in Hj' as (k' & g' & Hk' & Hg').
  destruct (group_positions _ gss k' g' j' domain Hcat Hgr Hk' Hg') as [<- _].
  rewrite Hdiv. by eapply Hmax.
Qed.

Lemma checker_last_group_wins_witness :
  (∀ gs : list (nat * string), reverse gs ≡ₚ gs) ∧
  "a.example" ∈ "a.example" :: replicate 10 "b.example" ++ ["a.example"] ∧
  ∃ w j,
    checker (stub (λ _ _, []) (λ j _, if Nat.eqb j 0 then "12" else "30"))
      reverse ("a.example" :: replicate 10 "b.example" ++ ["a.example"])
    = Done w ∧
    ("a.example" :: replicate 10 "b.example" ++ ["a.example"]) !! j
    = Some "a.example" ∧
    output w !! "a.example" = Some (if Nat.eqb j 0 then "12" else "30") ∧
    ∀ j', ("a.example" :: replicate 10 "b.example" ++ ["a.example"]) !! j'
          = Some "a.example" →
          j' `div` concurrent ≤ j `div` concurrent.
Proof.
  assert ("a.example" ∈ "a.example" :: replicate 10 "b.example" ++ ["a.example"])
    as Hin by (apply elem_of_cons; by left).
  split; [apply reverse_Permutation|]. split; [exact Hin|].
  apply (checker_last_group_wins (λ _ _, [])
           (λ j _, if Nat.eqb j 0 then "12" else "30") reverse
           ("a.example" :: replicate 10 "b.example" ++ ["a.example"])
           "a.example").
  - apply reverse_Permutation.
  - exact Hin.
Defined.

(** ** The probes of the server *)

Lemma concat_fmap_perm {A B} (h : A → list B) (l1 l2 : list A) :
  l1 ≡ₚ l2 → concat (h <$> l1) ≡ₚ concat (h <$> l2).
Proof.
  induction 1 as [|x l1 l2 _ IH|x y l|l1 l2 l3 _ IH1 _ IH2]; simpl.
  - done.
  - by rewrite IH.
  - by rewrite !(assoc_L (++)), (comm (++) (h y) (h x)).
  - by rewrite IH1.
Qed.

Lemma checkDomain_log env (gs : list (nat * string)) :
  concat ((λ g : nat * string, (checkDomain (env g.1) g.2).1) <$> gs)
  = omap (λ g : nat * string,
            match Dial (env g.1) (g.2 +:+ ":443") with
            | DialErr err => Some (Error err)
            | DialOk _ => None
            end) gs.
Proof.
  induction gs as [|[j d] gs IH]; [done|].
  simpl. unfold checkDomain at 1.
  destruct (Dial (env j) (d +:+ ":443")) as [[[|cert rest]]|err]; simpl.
  - apply IH.
  - apply IH.
  - f_equal. apply IH.
Qed.

(** X9. In a run of the server's own probes, every dial that fails is
    logged once, with the text of its error, and a dial that succeeds
    logs nothing. *)
Theorem checker_logs_failures env sched (domainsList : list string)
    (Hleaf : leafy env) (Hsched : ∀ gs, sched gs ≡ₚ gs) :
  ∃ w, checker (live env) sched domainsList = Done w ∧
       logged w ≡ₚ failures env domainsList.
Proof.
  rewrite (checker_ext (live env) _ sched (λ j d, live_stub env j d Hleaf)).
  destruct (checker_stub (λ j domain, (checkDomain (env j) domain).1)
              (λ j domain, returned (checkDomain (env j) domain))
              sched domainsList) as (gss & Hcat & _ & ->).
  eexists; split; [done|]. simpl.
  rewrite (concat_fmap_perm _ _ (numbered domainsList))
    by (by rewrite (sched_concat sched gss Hsched), Hcat).
  unfold failures. by rewrite <- checkDomain_log.
Qed.

Lemma checker_logs_failures_witness :
  leafy (λ j, if Nat.even j then world_refused else world_42h) ∧
  (∀ gs : list (nat * string), reverse gs ≡ₚ gs) ∧
  ∃ w, checker (live (λ j, if Nat.even j then world_refused else world_42h))
         reverse ["a.example"; "b.example"; "c.example"] = Done w ∧
       logged w
       ≡ₚ failures (λ j, if Nat.even j then world_refused else world_42h)
            ["a.example"; "b.example"; "c.example"].
Proof.
  assert (leafy (λ j, if Nat.even j then world_refused else world_42h))
    as Hleaf by (intros j host; by destruct (Nat.even j)).
  split; [exact Hleaf|]. split; [apply reverse_Permutation|].
  apply (checker_logs_failures
           (λ j, if Nat.even j then world_refused else world_42h) reverse
           ["a.example"; "b.example"; "c.example"] Hleaf).
  apply reverse_Permutation.
Defined.

(** ** The day count *)

Section Days_more.
Local Open Scope Z_scope.

Lemma all_from_spec ok n lo h :
  all_from ok n lo = true → lo ≤ h < lo + Z.of_nat n → ok h = true.
Proof.
  revert lo. induction n as [|n IH]; intros lo Hall Hh; [lia|].
  simpl in Hall. apply andb_true_iff in Hall as [Hlo Hall].
  destruct (decide (h = lo)) as [->|Hne]; [done|].
  apply (IH (lo + 1)); [done | lia].
Qed.

Lemma Hours_whole h :
  Hours (h * Hour)
  = PrimFloat.add (float64 h)
      (PrimFloat.div (float64 0) (float64 (60 * 60 * 1000000000))).
Proof.
  unfold Hours.
  assert (Hour ≠ 0) as Hnz by (by vm_compute).
  by rewrite Z.quot_mul, Z.rem_mul.
Qed.

Lemma whole_hours_checked :
  all_from (λ h, String.eqb
               (FormatFloat_f0
                  (PrimFloat.div
                     (PrimFloat.add (float64 h)
                        (PrimFloat.div (float64 0)
                           (float64 (60 * 60 * 1000000000))))
                     (float64 24)))
               (nearest_day h))
    (Z.to_nat 20001) (-10000) = true.
Proof. vm_compute. reflexivity. Qed.
End Days_more.

(** X10. When the handshake succeeds and the time left is a whole number
    [h] of hours, at most 10000 either way, the result text is [h / 24]
    rounded to the nearest integer, a half going to the even one, with a
    minus sign when the certificate has expired, also before a zero. *)
Theorem checkDomain_whole_hours env domain conn cert rest (h : Z)
    (Hdial : Dial env (domain +:+ ":443") = DialOk conn)
    (Hleaf : PeerCertificates conn = cert :: rest)
    (Hexp : NotAfter cert = (Now env + h * Hour)%Z)
    (Hrange : (-10000 ≤ h ≤ 10000)%Z) :
  checkDomain env domain = ([], Done (nearest_day h)).
Proof.
  unfold checkDomain. rewrite Hdial, Hleaf. unfold days_left.
  rewrite Hexp, Sub_in_range.
  - replace (Now env + h * Hour - Now env)%Z with (h * Hour)%Z by lia.
    rewrite Hours_whole.
    pose proof (all_from_spec _ _ _ h whole_hours_checked
                  ltac:(lia)) as Hok.
    apply String.eqb_eq in Hok. by rewrite Hok.
  - replace (Now env + h * Hour - Now env)%Z with (h * Hour)%Z by lia.
    unfold minDuration, maxDuration.
    change Hour with 3600000000000%Z. lia.
Qed.

Lemma checkDomain_whole_hours_witness :
  (-10000 ≤ 42 ≤ 10000)%Z ∧
  checkDomain world_42h "example.com" = ([], Done (nearest_day 42)).
Proof.
  split; [lia|].
  apply (checkDomain_whole_hours world_42h "example.com"
           {| PeerCertificates := [ {| NotAfter := 42 * Hour |} ] |}
           {| NotAfter := 42 * Hour |} [] 42);
    [reflexivity | reflexivity | reflexivity | lia].
Defined.

Lemma Sub_out_of_range t u :
  ¬ (minDuration ≤ t - u ≤ maxDuration)%Z →
  Sub t u = if (t <? u)%Z then minDuration else maxDuration.
Proof.
  intros Hout. unfold Sub, minDuration, maxDuration in *.
  destruct (Z.ltb_spec (t - u) (- 2 ^ 63)), (Z.ltb_spec t u); try lia.
  destruct (Z.ltb_spec (2 ^ 63 - 1) (t - u)); lia.
Qed.

(** X11. The time left saturates at the range of a Duration: for an
    expiry more than 2^63 - 1 nanoseconds ahead (about 292 years) the
    result text is "106752", and for one as far in the past "-106752". *)
Theorem checkDomain_saturates env domain conn cert rest
    (Hdial : Dial env (domain +:+ ":443") = DialOk conn)
    (Hleaf : PeerCertificates conn = cert :: rest)
    (Hout : ¬ (minDuration ≤ NotAfter cert - Now env ≤ maxDuration)%Z) :
  checkDomain env domain
  = ([], Done (if (NotAfter cert <? Now env)%Z then "-106752" else "106752")).
Proof.
  unfold checkDomain. rewrite Hdial, Hleaf. unfold days_left.
  rewrite Sub_out_of_range by done.
  destruct (NotAfter cert <? Now env)%Z; vm_compute; reflexivity.
Qed.

Lemma checkDomain_saturates_witness :
  ¬ (minDuration ≤ 10000000000000000000 - 0 ≤ maxDuration)%Z ∧
  checkDomain
    {| Dial := λ _, DialOk {| PeerCertificates :=
                               [ {| NotAfter := 10000000000000000000 |} ] |};
       Now := 0 |} "example.com"
  = ([], Done "106752").
Proof.
  assert (¬ (minDuration ≤ 10000000000000000000 - 0 ≤ maxDuration)%Z) as Hout
    by (unfold minDuration, maxDuration; lia).
  split; [exact Hout|].
  exact (checkDomain_saturates
           {| Dial := λ _, DialOk {| PeerCertificates :=
                                      [ {| NotAfter := 10000000000000000000 |} ] |};
              Now := 0 |} "example.com"
           {| PeerCertificates := [ {| NotAfter := 10000000000000000000 |} ] |}
           {| NotAfter := 10000000000000000000 |} [] eq_refl eq_refl Hout).
Defined.

(** ** The request handler *)

Lemma prefix_app p s : String.prefix p (p +:+ s) = true.
Proof.
  induction p as [|a p IH]; simpl; [by destruct s|].
  by destruct (Ascii.ascii_dec a a).
Qed.

Lemma substring_all s : String.substring 0 (String.length s) s = s.
Proof. induction s as [|a s IH]; simpl; [done | by rewrite IH]. Qed.

Lemma TrimPrefix_app p s : TrimPrefix (p +:+ s) p = s.
Proof.
  unfold TrimPrefix, HasPrefix. rewrite prefix_app.
  induction p as [|a p IH]; simpl.
  - rewrite Nat.sub_0_r. apply substring_all.
  - apply IH.
Qed.

Section Handler_facts.
Variable probe : nat → string → list string * outcome string.
Variable sched : list (nat * string) → list (nat * string).
Variable Quote : string → string.
Variable Marshal : respData → string + error.
Variables (elapsed elapsed' : string).

Lemma media_type_refused req :
  ContentType req ≠ "" → MediaType req ≠ "application/json" →
  negb (String.eqb (ContentType req) "")
  && negb (String.eqb (MediaType req) "application/json") = true.
Proof.
  intros H1 H2. apply String.eqb_neq in H1, H2. by rewrite H1, H2.
Qed.

(** X12. A request that is refused launches no probe: when the media
    type is not application/json, or the body does not decode, whatever
    the error, the handler answers in plain text with status 400, 413,
    415 or 500, and [checker] is not run. *)
Theorem handleRequest_refuses req
    (Hbad : (ContentType req ≠ "" ∧ MediaType req ≠ "application/json") ∨
            ∃ err, Decode req = inr err) :
  ∃ resp w,
    handleRequest probe sched Quote Marshal elapsed elapsed' req
    = Done (resp, w) ∧
    StatusCode resp ∈ [400; 413; 415; 500] ∧
    Header resp = [("Content-Type", "text/plain; charset=utf-8");
                   ("X-Content-Type-Options", "nosniff")] ∧
    output w = ∅ ∧ stdout w = [] ∧ probed w = [].
Proof.
  unfold handleRequest.
  destruct (negb (String.eqb (ContentType req) "")
            && negb (String.eqb (MediaType req) "application/json")) eqn:Hct.
  - do 2 eexists. split; [done|]. simpl. split_and!; try done.
    unfold StatusUnsupportedMediaType.
    repeat first [apply list_elem_of_here | apply list_elem_of_further].
  - destruct Hbad as [[H1 H2]|[err Herr]].
    { by rewrite media_type_refused in Hct. }
    rewrite Herr.
    destruct (asSyntaxError err) as [offset|];
      [|destruct (isUnexpectedEOF err);
        [|destruct (asUnmarshalTypeError err) as [[field offset]|];
          [|destruct (HasPrefix (errorText err) "json: unknown field ");
            [|destruct (isEOF err);
              [|destruct (String.eqb (errorText err)
                            "http: request body too large")]]]]].
    all: do 2 eexists; split; [done|]; simpl; split_and!; try done.
    all: unfold StatusBadRequest, StatusRequestEntityTooLarge,
           StatusInternalServerError.
    all: repeat first [apply list_elem_of_here | apply list_elem_of_further].
Qed.

(** X13. A body with a field the handler does not know is answered with
    status 400 and the name of the field: the decoder's text
    "json: unknown field <name>" becomes
    "Request body contains unknown field <name>". *)
Theorem handleRequest_unknown_field req err (name : string)
    (Hct : ContentType req = "" ∨ MediaType req = "application/json")
    (Herr : Decode req = inr err)
    (Hsyntax : asSyntaxError err = None)
    (Heof : isUnexpectedEOF err = false)
    (Htype : asUnmarshalTypeError err = None)
    (Htext : errorText err = "json: unknown field " +:+ name) :
  handleRequest probe sched Quote Marshal elapsed elapsed' req
  = Done (http_Error ("Request body contains unknown field " +:+ name)
            StatusBadRequest, Run0).
Proof.
  unfold handleRequest.
  assert (negb (String.eqb (ContentType req) "")
          && negb (String.eqb (MediaType req) "application/json") = false)
    as ->.
  { destruct Hct as [H|H]; rewrite H; simpl; [done|].
    by rewrite andb_false_r. }
  rewrite Herr, Hsyntax, Heof, Htype, Htext.
  unfold HasPrefix at 1. rewrite prefix_app.
  by rewrite TrimPrefix_app.
Qed.

(** X14. A request that decodes is answered with status 200 and the JSON
    rendering of the map of [checker], which holds one entry for each
    distinct domain asked; a request without a Content-Type header is
    taken as JSON. *)
Theorem handleRequest_serves lg f (render : respData → string) req doms
    (Hsched : ∀ gs, sched gs ≡ₚ gs)
    (Hct : ContentType req = "" ∨ MediaType req = "application/json")
    (Hdoms : Decode req = inl doms) :
  ∃ w,
    handleRequest (stub lg f) sched Quote (λ data, inl (render data))
      elapsed elapsed' req
    = Done ({| StatusCode := 200;
               Header := [("Content-Type", "application/json")];
               Body := render {| Data := output w; RequestTime := elapsed |} |},
            log_line ("Request took " +:+ elapsed' +:+ "to process") w) ∧
    dom (output w) = list_to_set (Domains doms) ∧
    probed w ≡ₚ Domains doms.
Proof.
  unfold handleRequest.
  assert (negb (String.eqb (ContentType req) "")
          && negb (String.eqb (MediaType req) "application/json") = false)
    as ->.
  { destruct Hct as [H|H]; rewrite H; simpl; [done|].
    by rewrite andb_false_r. }
  rewrite Hdoms.
  destruct (checker_stub lg f sched (Domains doms)) as (gss & Hcat & _ & ->).
  eexists. split; [done|]. simpl. split.
  - rewrite dom_writes, dom_empty_L, (left_id_L ∅ (∪)).
    by rewrite (sched_concat sched gss Hsched), Hcat, numbered_domains.
  - rewrite concat_sched_domains, (sched_concat sched gss Hsched), Hcat.
    by rewrite numbered_domains.
Qed.

(** X15. A request with an empty list of domains, or with none, is
    answered with status 200 and an empty map, and no probe is launched,
    whatever the probe is. *)
Theorem handleRequest_no_domains (render : respData → string) req
    (Hct : ContentType req = "" ∨ MediaType req = "application/json")
    (Hdoms : Decode req = inl {| Domains := [] |}) :
  ∃ w,
    handleRequest probe sched Quote (λ data, inl (render data))
      elapsed elapsed' req
    = Done ({| StatusCode := 200;
               Header := [("Content-Type", "application/json")];
               Body := render {| Data := ∅; RequestTime := elapsed |} |}, w) ∧
    output w = ∅ ∧ stdout w = [] ∧ probed w = [].
Proof.
  unfold handleRequest.
  assert (negb (String.eqb (ContentType req) "")
          && negb (String.eqb (MediaType req) "application/json") = false)
    as ->.
  { destruct Hct as [H|H]; rewrite H; simpl; [done|].
    by rewrite andb_false_r. }
  rewrite Hdoms. by eexists.
Qed.
End Handler_facts.

Lemma handleRequest_refuses_witness :
  ((ContentType {| ContentType := "text/xml"; MediaType := "text/xml";
                   Decode := inl {| Domains := ["a.example"] |} |} ≠ "" ∧
    MediaType {| ContentType := "text/xml"; MediaType := "text/xml";
                 Decode := inl {| Domains := ["a.example"] |} |}
    ≠ "application/json") ∨
   ∃ err, Decode {| ContentType := "text/xml"; MediaType := "text/xml";
                    Decode := inl {| Domains := ["a.example"] |} |} = inr err) ∧
  ∃ resp w,
    handleRequest (live (λ _, world_42h)) reverse id (λ _, inl "{}") "1ms" "2ms"
      {| ContentType := "text/xml"; MediaType := "text/xml";
         Decode := inl {| Domains := ["a.example"] |} |}
    = Done (resp, w) ∧
    StatusCode resp ∈ [400; 413; 415; 500] ∧
    Header resp = [("Content-Type", "text/plain; charset=utf-8");
                   ("X-Content-Type-Options", "nosniff")] ∧
    output w = ∅ ∧ stdout w = [] ∧ probed w = [].
Proof.
  assert ((ContentType {| ContentType := "text/xml"; MediaType := "text/xml";
                          Decode := inl {| Domains := ["a.example"] |} |} ≠ "" ∧
           MediaType {| ContentType := "text/xml"; MediaType := "text/xml";
                        Decode := inl {| Domains := ["a.example"] |} |}
           ≠ "application/json") ∨
          ∃ err, Decode {| ContentType := "text/xml"; MediaType := "text/xml";
                           Decode := inl {| Domains := ["a.example"] |} |}
                 = inr err) as Hbad
    by (left; split; discriminate).
  split; [exact Hbad|].
  exact (handleRequest_refuses (live (λ _, world_42h)) reverse id
           (λ _, inl "{}") "1ms" "2ms" _ Hbad).
Defined.

Lemma handleRequest_unknown_field_witness :
  handleRequest (live (λ _, world_42h)) reverse id (λ _, inl "{}") "1ms" "2ms"
    {| ContentType := ""; MediaType := "";
       Decode := inr {| asSyntaxError := None; isUnexpectedEOF := false;
                        asUnmarshalTypeError := None; isEOF := false;
                        errorText := "json: unknown field " +:+ "Hosts" |} |}
  = Done (http_Error ("Request body contains unknown field " +:+ "Hosts")
            StatusBadRequest, Run0).
Proof.
  apply (handleRequest_unknown_field (live (λ _, world_42h)) reverse id
           (λ _, inl "{}") "1ms" "2ms" _
           {| asSyntaxError := None; isUnexpectedEOF := false;
              asUnmarshalTypeError := None; isEOF := false;
              errorText := "json: unknown field " +:+ "Hosts" |} "Hosts");
    first [by left | reflexivity].
Defined.

Lemma handleRequest_serves_witness :
  (∀ gs : list (nat * string), reverse gs ≡ₚ gs) ∧
  ∃ w,
    handleRequest (stub (λ _ _, []) (λ _ domain, domain +:+ "!")) reverse id
      (λ data, inl (RequestTime data)) "1ms" "2ms"
      {| ContentType := "application/json; charset=utf-8";
         MediaType := "application/json";
         Decode := inl {| Domains := ["a.example"; "b.example"] |} |}
    = Done ({| StatusCode := 200;
               Header := [("Content-Type", "application/json")];
               Body := RequestTime
                         {| Data := output w; RequestTime := "1ms" |} |},
            log_line ("Request took " +:+ "2ms" +:+ "to process") w) ∧
    dom (output w) = list_to_set ["a.example"; "b.example"] ∧
    probed w ≡ₚ ["a.example"; "b.example"].
Proof.
  split; [apply reverse_Permutation|].
  apply (handleRequest_serves reverse id "1ms" "2ms" (λ _ _, [])
           (λ _ domain, domain +:+ "!") RequestTime
           {| ContentType := "application/json; charset=utf-8";
              MediaType := "application/json";
              Decode := inl {| Domains := ["a.example"; "b.example"] |} |}
           {| Domains := ["a.example"; "b.example"] |}).
  - apply reverse_Permutation.
  - by right.
  - reflexivity.
Defined.

Lemma handleRequest_no_domains_witness :
  ∃ w,
    handleRequest (λ _ _, ([], Panic)) reverse id
      (λ data, inl (RequestTime data)) "1ms" "2ms"
      {| ContentType := ""; MediaType := "";
         Decode := inl {| Domains := [] |} |}
    = Done ({| StatusCode := 200;
               Header := [("Content-Type", "application/json")];
               Body := RequestTime {| Data := ∅; RequestTime := "1ms" |} |}, w) ∧
    output w = ∅ ∧ stdout w = [] ∧ probed w = [].
Proof.
  apply (handleRequest_no_domains (λ _ _, ([], Panic)) reverse id "1ms" "2ms"
           RequestTime
           {| ContentType := ""; MediaType := "";
              Decode := inl {| Domains := [] |} |});
    first [by left | reflexivity].
Defined.
